(** * Byte-level and BPE tokenizers: a shallow embedding of
      [Homework/01/scripts/tokenizer.py] and its verification.

    Python values are modelled as follows.
    - [int] is [Z]; a [bytes] object is a list of [Z] in [0..255]; a [str] is
      the list of its code points.
    - A [dict] is an association list kept in insertion order (iteration order
      of a Python dict), because [max] over [cnt.keys()] depends on it.
    - Methods that mutate [self] are state-passing functions returning the new
      object together with the outcome of the call; an exception leaves the
      mutations made before it in place, as in Python.
    - [while] loops are unrolled a bounded number of times; the outcome
      [OutOfFuel] marks an unrolling that was too short, and the termination
      theorems show that the bounds used here are never too short. *)

From Stdlib Require Import ZArith List Bool Lia Arith PeanoNat.
Import ListNotations.
Open Scope Z_scope.

(** ** Outcomes of a call *)

Inductive exn : Type :=
| KeyError
| ValueError
| UnicodeEncodeError.

Inductive result (A : Type) : Type :=
| Ok (a : A)
| Raise (e : exn)
| OutOfFuel.

Arguments Ok {A} a.
Arguments Raise {A} e.
Arguments OutOfFuel {A}.

Definition bind {A B : Type} (r : result A) (k : A -> result B) : result B :=
  match r with
  | Ok a => k a
  | Raise e => Raise e
  | OutOfFuel => OutOfFuel
  end.

Notation "x <- c1 ;; c2" := (bind c1 (fun x => c2))
  (at level 61, c1 at next level, right associativity).

(** ** Equality tests (Python's [==] on ints, tuples of ints and bytes) *)

Class Eqb (K : Type) : Type := eqb : K -> K -> bool.

#[export] Instance Eqb_Z : Eqb Z := Z.eqb.

#[export] Instance Eqb_pair {A B : Type} `{Eqb A} `{Eqb B} : Eqb (A * B) :=
  fun p q => eqb (fst p) (fst q) && eqb (snd p) (snd q).

Fixpoint list_eqb {A : Type} `{Eqb A} (l m : list A) : bool :=
  match l, m with
  | [], [] => true
  | x :: l', y :: m' => eqb x y && list_eqb l' m'
  | _, _ => false
  end.

#[export] Instance Eqb_list {A : Type} `{Eqb A} : Eqb (list A) := list_eqb.

(** The test decides equality (what the dictionary lemmas need of a key). *)
Class EqbLaw (K : Type) `{Eqb K} : Prop :=
  eqb_eq : forall x y : K, eqb x y = true <-> x = y.
Arguments EqbLaw K {_}.

(** ** Insertion-ordered dictionaries *)

Module PyDict.
Section Dict.
Context {K V : Type} `{Eqb K}.

Definition dict : Type := list (K * V).

(** [d.get(k)] *)
Fixpoint get (d : dict) (k : K) : option V :=
  match d with
  | [] => None
  | (k', v) :: d' => if eqb k' k then Some v else get d' k
  end.

(** [d.get(k, dflt)] *)
Definition get_default (d : dict) (k : K) (dflt : V) : V :=
  match get d k with
  | Some v => v
  | None => dflt
  end.

(** [d[k]] as an expression *)
Definition getitem (d : dict) (k : K) : result V :=
  match get d k with
  | Some v => Ok v
  | None => Raise KeyError
  end.

(** [k in d] *)
Definition contains (d : dict) (k : K) : bool :=
  match get d k with
  | Some _ => true
  | None => false
  end.

(** [d[k] = v]: an existing key keeps its position, a new key goes last. *)
Fixpoint set (d : dict) (k : K) (v : V) : dict :=
  match d with
  | [] => [(k, v)]
  | (k', v') :: d' =>
      if eqb k' k then (k', v) :: d' else (k', v') :: set d' k v
  end.

Definition keys (d : dict) : list K := map fst d.

Definition len (d : dict) : Z := Z.of_nat (length d).

End Dict.
Arguments dict : clear implicits.
End PyDict.

Import PyDict.

(** ** Python's builtin [max(iterable, key=...)]

    [max] keeps the first element and replaces it only by a later element
    whose key is strictly greater, so the first of several maximal elements is
    returned; on an empty iterable it raises [ValueError]. *)

Fixpoint max_from {A : Type} (gt : A -> A -> bool) (best : A) (l : list A) : A :=
  match l with
  | [] => best
  | x :: l' => max_from gt (if gt x best then x else best) l'
  end.

Definition py_max {A : Type} (gt : A -> A -> bool) (l : list A) : result A :=
  match l with
  | [] => Raise ValueError
  | x :: l' => Ok (max_from gt x l')
  end.

(** Python's [>] on 2-tuples of ints is lexicographic. *)
Definition tuple_gt (x y : Z * Z) : bool :=
  (fst y <? fst x) || ((fst x =? fst y) && (snd y <? snd x)).

(** ** [str], [bytes] and the UTF-8 codec *)

Definition bytes : Type := list Z.
Definition str : Type := list Z.

Module Utf8.

(** The replacement character U+FFFD emitted under [errors='replace']. *)
Definition REPLACEMENT : Z := 0xFFFD.

Definition is_surrogate (cp : Z) : bool := (0xD800 <=? cp) && (cp <=? 0xDFFF).

(** Code points that [str.encode('utf-8')] accepts. *)
Definition is_scalar (cp : Z) : bool :=
  (0 <=? cp) && (cp <=? 0x10FFFF) && negb (is_surrogate cp).

Definition encode_char (cp : Z) : result bytes :=
  if negb (is_scalar cp) then Raise UnicodeEncodeError
  else if cp <? 0x80 then Ok [cp]
  else if cp <? 0x800 then Ok [0xC0 + cp / 64; 0x80 + cp mod 64]
  else if cp <? 0x10000 then
    Ok [0xE0 + cp / 4096; 0x80 + (cp / 64) mod 64; 0x80 + cp mod 64]
  else
    Ok [0xF0 + cp / 262144; 0x80 + (cp / 4096) mod 64;
        0x80 + (cp / 64) mod 64; 0x80 + cp mod 64].

(** [text.encode('utf-8')] *)
Fixpoint encode (text : str) : result bytes :=
  match text with
  | [] => Ok []
  | cp :: text' =>
      b <- encode_char cp ;;
      bs <- encode text' ;;
      Ok (b ++ bs)
  end.

Definition is_continuation (b : Z) : bool := (0x80 <=? b) && (b <? 0xC0).

(** [data.decode('utf-8', errors='replace')].  An ill-formed sequence is
    replaced by one U+FFFD that covers its longest prefix which can still
    start a well-formed sequence (at least one byte); decoding resumes right
    after that prefix.  A truncated sequence at the end of the data is
    replaced by one U+FFFD. *)
Fixpoint decode (data : bytes) : str :=
  match data with
  | [] => []
  | ch :: s1 =>
    if ch <? 0x80 then ch :: decode s1
    else if ch <? 0xC2 then REPLACEMENT :: decode s1
    else if ch <? 0xE0 then
      match s1 with
      | [] => [REPLACEMENT]
      | ch2 :: s2 =>
        if is_continuation ch2
        then ((ch - 0xC0) * 64 + (ch2 - 0x80)) :: decode s2
        else REPLACEMENT :: decode s1
      end
    else if ch <? 0xF0 then
      match s1 with
      | [] => [REPLACEMENT]
      | ch2 :: s2 =>
        if negb (is_continuation ch2)
           || (if ch2 <? 0xA0 then ch =? 0xE0 else ch =? 0xED)
        then REPLACEMENT :: decode s1
        else
          match s2 with
          | [] => [REPLACEMENT]
          | ch3 :: s3 =>
            if is_continuation ch3
            then ((ch - 0xE0) * 4096 + (ch2 - 0x80) * 64 + (ch3 - 0x80))
                   :: decode s3
            else REPLACEMENT :: decode s2
          end
      end
    else if ch <? 0xF5 then
      match s1 with
      | [] => [REPLACEMENT]
      | ch2 :: s2 =>
        if negb (is_continuation ch2)
           || (if ch2 <? 0x90 then ch =? 0xF0 else ch =? 0xF4)
        then REPLACEMENT :: decode s1
        else
          match s2 with
          | [] => [REPLACEMENT]
          | ch3 :: s3 =>
            if is_continuation ch3
            then
              match s3 with
              | [] => [REPLACEMENT]
              | ch4 :: s4 =>
                if is_continuation ch4
                then ((ch - 0xF0) * 262144 + (ch2 - 0x80) * 4096
                      + (ch3 - 0x80) * 64 + (ch4 - 0x80)) :: decode s4
                else REPLACEMENT :: decode s3
              end
            else REPLACEMENT :: decode s2
          end
      end
    else REPLACEMENT :: decode s1
  end.

End Utf8.

(** ** [count_pairs] *)

(** [ids[i]] for an index that the enclosing loop keeps in range. *)
Definition item (ids : list Z) (i : nat) : Z := nth i ids 0.

(** [range(len(ids) - 1)]: empty when [ids] has fewer than two elements. *)
Definition pair_positions (ids : list Z) : list nat :=
  seq 0 (length ids - 1).

Definition count_pairs (data : list (list Z)) : dict (Z * Z) Z :=
  fold_left
    (fun pairs ids =>
       fold_left
         (fun pairs i =>
            let pair := (item ids i, item ids (S i)) in
            set pairs pair (get_default pairs pair 0 + 1))
         (pair_positions ids) pairs)
    data [].

(** ** [merge] *)

(** The [while i < len(numbers)] loop with its two variables [i] and
    [result]; [i] grows in every iteration, so [len(numbers)] iterations are
    enough. *)
Fixpoint merge_loop (fuel : nat) (numbers : list Z) (pair : Z * Z) (idx : Z)
         (i : nat) (result : list Z) : list Z :=
  match fuel with
  | O => result
  | S fuel' =>
    if (i <? length numbers)%nat then
      if (i <? length numbers - 1)%nat
         && eqb (item numbers i, item numbers (S i)) pair
      then merge_loop fuel' numbers pair idx (i + 2) (result ++ [idx])
      else merge_loop fuel' numbers pair idx (i + 1) (result ++ [item numbers i])
    else result
  end.

Definition merge (numbers : list Z) (pair : Z * Z) (idx : Z) : list Z :=
  merge_loop (length numbers) numbers pair idx 0%nat [].

(** The substitution as the specification words it: scan left to right, on a
    match emit the replacement and advance two positions, otherwise emit the
    current element and advance one. *)
Fixpoint substitute (numbers : list Z) (pair : Z * Z) (idx : Z) : list Z :=
  match numbers with
  | [] => []
  | a :: rest =>
    match rest with
    | [] => [a]
    | b :: rest' =>
      if eqb (a, b) pair then idx :: substitute rest' pair idx
      else a :: substitute rest pair idx
    end
  end.

(** Adjacent occurrences of a pair in one sequence and in a batch, counted
    without reference to the dictionary. *)
Fixpoint occurrences (p : Z * Z) (ids : list Z) : Z :=
  match ids with
  | [] => 0
  | a :: rest =>
    match rest with
    | [] => 0
    | b :: _ => (if eqb (a, b) p then 1 else 0) + occurrences p rest
    end
  end.

Fixpoint batch_occurrences (p : Z * Z) (data : list (list Z)) : Z :=
  match data with
  | [] => 0
  | ids :: data' => occurrences p ids + batch_occurrences p data'
  end.

(** ** Methods: state passing with exceptions

    A method is a function from the object before the call to the object
    after it and the outcome. *)

Definition M (S A : Type) : Type := S -> S * result A.

Definition ret {S A : Type} (a : A) : M S A := fun s => (s, Ok a).

Definition bindM {S A B : Type} (m : M S A) (k : A -> M S B) : M S B :=
  fun s =>
    match m s with
    | (s', Ok a) => k a s'
    | (s', Raise e) => (s', Raise e)
    | (s', OutOfFuel) => (s', OutOfFuel)
    end.

Definition lift {S A : Type} (r : result A) : M S A := fun s => (s, r).

Definition read {S A : Type} (f : S -> A) : M S A := fun s => (s, Ok (f s)).

Definition modify {S : Type} (f : S -> S) : M S unit := fun s => (f s, Ok tt).

Notation "x <~ c1 ;; c2" := (bindM c1 (fun x => c2))
  (at level 61, c1 at next level, right associativity).
Notation "c1 ;;; c2" := (bindM c1 (fun _ => c2))
  (at level 61, right associativity).

(** [range(n)] *)
Definition range (n : Z) : list Z := map Z.of_nat (seq 0 (Z.to_nat n)).

(** ** [class ByteTokenizer] *)

Module ByteTokenizer.

Record t : Type := mk {
  pad_token_id : option Z;
  bos_token_id : option Z;
  eos_token_id : option Z;
  vocab : dict Z bytes
}.

(** [b'<pad>'], [b'<bos>'] and [b'<eos>']; [__init__] sets them and nothing
    reassigns them. *)
Definition pad_token : bytes := [60; 112; 97; 100; 62].
Definition bos_token : bytes := [60; 98; 111; 115; 62].
Definition eos_token : bytes := [60; 101; 111; 115; 62].
Definition special_tokens : list bytes := [pad_token; bos_token; eos_token].

Definition set_vocab (v : dict Z bytes) (self : t) : t :=
  mk (pad_token_id self) (bos_token_id self) (eos_token_id self) v.
Definition set_pad_token_id (i : option Z) (self : t) : t :=
  mk i (bos_token_id self) (eos_token_id self) (vocab self).
Definition set_bos_token_id (i : option Z) (self : t) : t :=
  mk (pad_token_id self) i (eos_token_id self) (vocab self).
Definition set_eos_token_id (i : option Z) (self : t) : t :=
  mk (pad_token_id self) (bos_token_id self) i (vocab self).

(** [{idx: bytes([idx]) for idx in range(256)}] *)
Definition byte_vocab : dict Z bytes :=
  fold_left (fun d idx => set d idx [idx]) (range 256) [].

(** [{y: x for x, y in vocab.items()}] *)
Definition invert (v : dict Z bytes) : dict bytes Z :=
  fold_left (fun d xy => set d (snd xy) (fst xy)) v [].

Definition init_vocab : M t unit :=
  modify (set_vocab byte_vocab) ;;;
  modify (fun self =>
    fold_left (fun self token =>
                 set_vocab (set (vocab self) (len (vocab self)) token) self)
              special_tokens self) ;;;
  token_to_id <~ read (fun self => invert (vocab self)) ;;
  pad <~ lift (getitem token_to_id pad_token) ;;
  modify (set_pad_token_id (Some pad)) ;;;
  bos <~ lift (getitem token_to_id bos_token) ;;
  modify (set_bos_token_id (Some bos)) ;;;
  eos <~ lift (getitem token_to_id eos_token) ;;
  modify (set_eos_token_id (Some eos)).

(** The attributes as the first lines of [__init__] leave them. *)
Definition blank : t := mk None None None [].

Definition init : M t unit := init_vocab.

Definition train (texts : list str) (max_vocab : Z) : M t unit := init_vocab.

Definition encode (self : t) (text : str) : result (list Z) :=
  Utf8.encode text.

(** [b''.join(self.vocab[idx] for idx in ids)] *)
Fixpoint join_vocab (v : dict Z bytes) (ids : list Z) : result bytes :=
  match ids with
  | [] => Ok []
  | idx :: ids' =>
      b <- getitem v idx ;;
      bs <- join_vocab v ids' ;;
      Ok (b ++ bs)
  end.

Definition decode (self : t) (ids : list Z) : result str :=
  data <- join_vocab (vocab self) ids ;;
  Ok (Utf8.decode data).

Definition get_vocab_size (self : t) : Z := len (vocab self).

End ByteTokenizer.

(** ** [class BpeTokenizer(ByteTokenizer)] *)

(** [max(cnt.keys(), key=lambda p: (cnt[p], sum(p)))]; every [p] the key
    function sees is a key of [cnt], so [cnt[p]] cannot fail there. *)
Definition pair_key (cnt : dict (Z * Z) Z) (p : Z * Z) : Z * Z :=
  (get_default cnt p 0, fst p + snd p).

Definition select_pair (cnt : dict (Z * Z) Z) : result (Z * Z) :=
  py_max (fun p q => tuple_gt (pair_key cnt p) (pair_key cnt q)) (keys cnt).

Module BpeTokenizer.

Record t : Type := mk {
  base : ByteTokenizer.t;
  merges : dict (Z * Z) Z
}.

Definition vocab (self : t) : dict Z bytes := ByteTokenizer.vocab (base self).

Definition set_merges (m : dict (Z * Z) Z) (self : t) : t := mk (base self) m.
Definition set_vocab (v : dict Z bytes) (self : t) : t :=
  mk (ByteTokenizer.set_vocab v (base self)) (merges self).

(** A method of the parent class run on the same object. *)
Definition super {A : Type} (m : M ByteTokenizer.t A) : M t A :=
  fun self => let (b, r) := m (base self) in (mk b (merges self), r).

Definition init_vocab : M t unit :=
  super ByteTokenizer.init_vocab ;;;
  modify (set_merges []).

Definition blank : t := mk ByteTokenizer.blank [].

(** [__init__]: the parent's [__init__] calls the overriding [init_vocab]. *)
Definition init : M t unit :=
  modify (set_merges []) ;;;
  init_vocab.

(** How a call of [train] ended.  Python returns [None] in the first three
    cases; the tag only records which exit was taken. *)
Inductive train_exit : Type :=
| NothingToTrain
| RangeExhausted
| EarlyStop (pair : Z * Z).

(** [[list(text.encode('utf-8')) for text in texts]] *)
Fixpoint encode_texts (texts : list str) : result (list (list Z)) :=
  match texts with
  | [] => Ok []
  | text :: texts' =>
      ids <- Utf8.encode text ;;
      rest <- encode_texts texts' ;;
      Ok (ids :: rest)
  end.

(** What one pass through the body of [for _ in progress_bar] does to the
    loop: go on with the rewritten sequences, or [break]. *)
Inductive step_result : Type :=
| Continue (list_of_ids : list (list Z))
| Break (pair : Z * Z).

(** The body of the training loop.  The progress bar only displays. *)
Definition train_step (list_of_ids : list (list Z)) : M t step_result :=
  let cnt := count_pairs list_of_ids in
  pair <~ lift (select_pair cnt) ;;
  freq <~ lift (getitem cnt pair) ;;
  if freq =? 1 then ret (Break pair)
  else
    new_idx <~ read (fun self => len (vocab self)) ;;
    modify (fun self => set_merges (set (merges self) pair new_idx) self) ;;;
    left <~ (fun self => lift (getitem (vocab self) (fst pair)) self) ;;
    right <~ (fun self => lift (getitem (vocab self) (snd pair)) self) ;;
    modify (fun self =>
              set_vocab (set (vocab self) new_idx (left ++ right)) self) ;;;
    ret (Continue (map (fun ids => merge ids pair new_idx) list_of_ids)).

(** [for _ in range(...)] with [n] values left in the range. *)
Fixpoint train_loop (n : nat) (list_of_ids : list (list Z)) : M t train_exit :=
  match n with
  | O => ret RangeExhausted
  | S n' =>
      r <~ train_step list_of_ids ;;
      match r with
      | Break best => ret (EarlyStop best)
      | Continue list_of_ids' => train_loop n' list_of_ids'
      end
  end.

Definition train (texts : list str) (max_vocab : Z) : M t train_exit :=
  init_vocab ;;;
  size <~ read (fun self => len (vocab self)) ;;
  if max_vocab <=? size then ret NothingToTrain
  else
    let n := Z.to_nat (max_vocab - size) in
    list_of_ids <~ lift (encode_texts texts) ;;
    train_loop n list_of_ids.

(** The [while len(ids) > 1] loop, unrolled at most [fuel] times. *)
Fixpoint encode_loop (fuel : nat) (merges : dict (Z * Z) Z) (ids : list Z)
  : result (list Z) :=
  match fuel with
  | O => OutOfFuel
  | S fuel' =>
    if (1 <? length ids)%nat then
      let cnt := count_pairs [ids] in
      pair <- select_pair cnt ;;
      if negb (contains merges pair) then Ok ids
      else
        idx <- getitem merges pair ;;
        encode_loop fuel' merges (merge ids pair idx)
    else Ok ids
  end.

(** Every iteration but the last shortens [ids], so [len(ids) + 1] unrollings
    cover the loop. *)
Definition encode (self : t) (text : str) : result (list Z) :=
  ids <- Utf8.encode text ;;
  encode_loop (S (length ids)) (merges self) ids.

Definition decode (self : t) (ids : list Z) : result str :=
  ByteTokenizer.decode (base self) ids.

Definition get_vocab_size (self : t) : Z :=
  ByteTokenizer.get_vocab_size (base self).

(** A freshly constructed tokenizer. *)
Definition new : t := fst (init blank).

(** The tokenizers a program can hold: a new one, or one on which [train]
    was called (whether it returned or raised). *)
Inductive reachable : t -> Prop :=
| reach_new : reachable new
| reach_train (self : t) (texts : list str) (max_vocab : Z) :
    reachable self -> reachable (fst (train texts max_vocab self)).

End BpeTokenizer.


(** [(ids[i], ids[i + 1])] for every position, in order. *)
Fixpoint adjacent (ids : list Z) : list (Z * Z) :=
  match ids with
  | [] => []
  | a :: rest =>
    match rest with
    | [] => []
    | b :: _ => (a, b) :: adjacent rest
    end
  end.

(** [pairs[pair] = pairs.get(pair, 0) + 1] *)
Definition bump (pairs : dict (Z * Z) Z) (p : Z * Z) : dict (Z * Z) Z :=
  set pairs p (get_default pairs p 0 + 1).

(** How often [p] occurs in a list of pairs. *)
Fixpoint tally (p : Z * Z) (ps : list (Z * Z)) : Z :=
  match ps with
  | [] => 0
  | q :: ps' => (if eqb q p then 1 else 0) + tally p ps'
  end.

(** ** Definitions used to state the properties *)

Import BpeTokenizer.

(** The 259 entries in the order [init_vocab] inserts them. *)
Definition base_vocab : dict Z bytes :=
  map (fun b => (b, [b])) (range 256)
  ++ [(256, ByteTokenizer.pad_token); (257, ByteTokenizer.bos_token);
      (258, ByteTokenizer.eos_token)].

Definition base_tokenizer : ByteTokenizer.t :=
  ByteTokenizer.mk (Some 256) (Some 257) (Some 258) base_vocab.

Record wf (self : BpeTokenizer.t) : Prop := {
  wf_keys :
    keys (BpeTokenizer.vocab self) = range (len (BpeTokenizer.vocab self));
  wf_bytes :
    forall b, 0 <= b < 256 -> get (BpeTokenizer.vocab self) b = Some [b];
  wf_merges :
    forall p idx,
      get (BpeTokenizer.merges self) p = Some idx ->
      exists l r,
        get (BpeTokenizer.vocab self) (fst p) = Some l
        /\ get (BpeTokenizer.vocab self) (snd p) = Some r
        /\ get (BpeTokenizer.vocab self) idx = Some (l ++ r)
}.

(** All ids of a sequence have a vocabulary entry. *)
Definition known (v : dict Z bytes) (ids : list Z) : Prop :=
  Forall (fun x => contains v x = true) ids.

(** What holds when the loop is left, in terms of how it was left. *)
Definition loop_post (size0 : Z) (n : nat) (self' : t)
           (r : result train_exit) : Prop :=
  match r with
  | Ok RangeExhausted => len (vocab self') = size0 + Z.of_nat n
  | Ok (EarlyStop p) =>
      exists seqs',
        train_step seqs' self' = (self', Ok (Break p))
        /\ select_pair (count_pairs seqs') = Ok p
        /\ get (count_pairs seqs') p = Some 1
  | Ok NothingToTrain => False
  | Raise e => e = ValueError
  | OutOfFuel => False
  end.

(** What holds after [train], in terms of how it ended. *)
Definition train_post (max_vocab : Z) (self' : t)
           (r : result train_exit) : Prop :=
  match r with
  | Ok NothingToTrain =>
      max_vocab <= 259 /\ self' = mk base_tokenizer []
  | Ok RangeExhausted => 259 < max_vocab /\ len (vocab self') = max_vocab
  | Ok (EarlyStop p) =>
      259 < max_vocab
      /\ exists seqs',
           train_step seqs' self' = (self', Ok (Break p))
           /\ select_pair (count_pairs seqs') = Ok p
           /\ get (count_pairs seqs') p = Some 1
  | Raise e =>
      259 < max_vocab /\ (e = ValueError \/ e = UnicodeEncodeError)
  | OutOfFuel => False
  end.

(** The order that Python's tuple comparison puts on the keys. *)
Definition key_lt (x y : Z * Z) : Prop :=
  fst x < fst y \/ (fst x = fst y /\ snd x < snd y).

Definition is_byte (b : Z) : Prop := 0 <= b < 256.

(** The tokenizer and the training sequences after [k] complete passes
    through the body of the training loop, started from [list_of_ids] and
    [self]; [None] when one of these passes left the loop or raised. *)
Fixpoint after_iterations (k : nat) (list_of_ids : list (list Z)) (self : t)
  : option (list (list Z) * t) :=
  match k with
  | O => Some (list_of_ids, self)
  | S k' =>
    match train_step list_of_ids self with
    | (self', Ok (Continue list_of_ids')) =>
        after_iterations k' list_of_ids' self'
    | _ => None
    end
  end.

(** ** Definitions used to state further properties *)

(** Undoing a substitution: every [idx] is expanded back into the pair. *)
Definition unmerge (ids : list Z) (pair : Z * Z) (idx : Z) : list Z :=
  flat_map (fun x => if x =? idx then [fst pair; snd pair] else [x]) ids.

(** [sum(d.values())] *)
Definition total (d : dict (Z * Z) Z) : Z := fold_right Z.add 0 (map snd d).

(** The distinct elements of a list, in the order of their first
    occurrence. *)
Definition first_seen (l : list (Z * Z)) : list (Z * Z) :=
  fold_left (fun acc x => if existsb (eqb x) acc then acc else acc ++ [x]) l [].

(** What training keeps true of a tokenizer and its working sequences, beyond
    [wf]: merged pairs are gone from the sequences; composite ids are handed
    out consecutively from 259 and each is larger than its two parts; the
    vocabulary is the base vocabulary followed by one entry per merge; every
    entry is a non-empty byte string; the control ids stay as
    [init_vocab] recorded them. *)
Record trained (self : t) (seqs : list (list Z)) : Prop := {
  tr_wf : wf self;
  tr_known : Forall (known (vocab self)) seqs;
  tr_gone : forall p, In p (keys (merges self)) -> batch_occurrences p seqs = 0;
  tr_nodup : NoDup (keys (merges self));
  tr_ids :
    map snd (merges self)
    = map (fun i => 259 + Z.of_nat i) (seq 0 (length (merges self)));
  tr_parts :
    forall p idx, get (merges self) p = Some idx ->
                  0 <= fst p < idx /\ 0 <= snd p < idx;
  tr_vocab :
    exists ext,
      vocab self = base_vocab ++ ext
      /\ length ext = length (merges self)
      /\ Forall (fun e => (2 <= length (snd e))%nat) ext;
  tr_bytes :
    Forall (fun e => snd e <> [] /\ Forall is_byte (snd e)) (vocab self);
  tr_control :
    ByteTokenizer.pad_token_id (base self) = Some 256
    /\ ByteTokenizer.bos_token_id (base self) = Some 257
    /\ ByteTokenizer.eos_token_id (base self) = Some 258
}.

(** * Verification *)

(** ** Equality tests *)

#[export] Instance EqbLaw_Z : EqbLaw Z.
Proof. intros x y. apply Z.eqb_eq. Qed.

#[export] Instance EqbLaw_pair {A B : Type} `{EqbLaw A} `{EqbLaw B} :
  EqbLaw (A * B).
Proof.
  intros [a b] [c d]. unfold eqb, Eqb_pair; simpl.
  rewrite andb_true_iff, !eqb_eq. split.
  - intros [-> ->]; reflexivity.
  - intros E; inversion E; auto.
Qed.

#[export] Instance EqbLaw_list {A : Type} `{EqbLaw A} : EqbLaw (list A).
Proof.
  intros l. unfold eqb, Eqb_list.
  induction l as [|x l IH]; intros [|y m]; simpl; try (split; congruence).
  rewrite andb_true_iff, eqb_eq, IH. split.
  - intros [-> ->]; reflexivity.
  - intros E; inversion E; auto.
Qed.

Lemma eqb_refl {K : Type} `{EqbLaw K} (x : K) : eqb x x = true.
Proof. apply eqb_eq; reflexivity. Qed.

Lemma eqb_neq {K : Type} `{EqbLaw K} (x y : K) : eqb x y = false <-> x <> y.
Proof.
  rewrite <- (eqb_eq x y). destruct (eqb x y); split; congruence.
Qed.

(** ** Dictionaries *)

Section DictFacts.
Context {K V : Type} `{EqbLaw K}.
Implicit Types (d : dict K V) (k : K) (v : V).

Lemma get_set_same d k v : get (set d k v) k = Some v.
Proof.
  induction d as [|[k' v'] d IH]; simpl.
  - now rewrite eqb_refl.
  - destruct (eqb k' k) eqn:E; simpl; rewrite E; auto.
Qed.

Lemma get_set_other d k k' v : k <> k' -> get (set d k v) k' = get d k'.
Proof.
  intros N. induction d as [|[k0 v0] d IH]; simpl.
  - apply eqb_neq in N. now rewrite N.
  - destruct (eqb k0 k) eqn:E; simpl.
    + apply eqb_eq in E; subst k0.
      apply eqb_neq in N. now rewrite N.
    + now rewrite IH.
Qed.

Lemma get_Some_In d k v : get d k = Some v -> In k (keys d).
Proof.
  induction d as [|[k' v'] d IH]; simpl; [discriminate|].
  destruct (eqb k' k) eqn:E.
  - apply eqb_eq in E; auto.
  - auto.
Qed.

Lemma get_None_notin d k : get d k = None <-> ~ In k (keys d).
Proof.
  induction d as [|[k' v'] d IH]; simpl.
  - tauto.
  - destruct (eqb k' k) eqn:E.
    + apply eqb_eq in E. split; [discriminate | tauto].
    + apply eqb_neq in E. tauto.
Qed.

Lemma In_keys_get d k : In k (keys d) -> exists v, get d k = Some v.
Proof.
  intros I. destruct (get d k) eqn:E; eauto.
  apply get_None_notin in E. contradiction.
Qed.

Lemma contains_In d k : contains d k = true <-> In k (keys d).
Proof.
  unfold contains. destruct (get d k) eqn:E.
  - split; auto. intros _. eapply get_Some_In; eauto.
  - apply get_None_notin in E. split; [discriminate | contradiction].
Qed.

Lemma keys_set d k v :
  keys (set d k v) = if contains d k then keys d else keys d ++ [k].
Proof.
  unfold contains.
  induction d as [|[k' v'] d IH]; simpl; auto.
  destruct (eqb k' k) eqn:E; simpl; auto.
  rewrite IH. destruct (get d k); reflexivity.
Qed.

Lemma length_set d k v :
  length (set d k v) = if contains d k then length d else S (length d).
Proof.
  unfold contains.
  induction d as [|[k' v'] d IH]; simpl; auto.
  destruct (eqb k' k) eqn:E; simpl; auto.
  rewrite IH. destruct (get d k); reflexivity.
Qed.

Lemma length_set_ge d k v : (length d <= length (set d k v))%nat.
Proof. rewrite length_set. destruct (contains d k); lia. Qed.

Lemma NoDup_keys_set d k v : NoDup (keys d) -> NoDup (keys (set d k v)).
Proof.
  intros N. rewrite keys_set. destruct (contains d k) eqn:E; auto.
  assert (~ In k (keys d)) as NI.
  { intros I. apply contains_In in I. congruence. }
  clear E. induction (keys d) as [|x l IH]; simpl.
  - constructor; [tauto | constructor].
  - inversion N; subst. constructor.
    + rewrite in_app_iff; simpl. intros [I | [E | []]]; [tauto|].
      subst; simpl in NI; tauto.
    + apply IH; auto. simpl in NI. tauto.
Qed.

Lemma getitem_Ok d k v : getitem d k = Ok v <-> get d k = Some v.
Proof.
  unfold getitem. destruct (get d k); split; congruence.
Qed.

End DictFacts.

(** ** [merge] is the left-to-right substitution *)

Lemma skipn_item (l : list Z) (i : nat) :
  (i < length l)%nat -> skipn i l = item l i :: skipn (S i) l.
Proof.
  revert i. induction l as [|a l IH]; intros [|i] L; simpl in *; try lia; auto.
  unfold item in *. simpl. apply IH. lia.
Qed.

Lemma substitute_cons2 (a b : Z) (rest : list Z) (pair : Z * Z) (idx : Z) :
  substitute (a :: b :: rest) pair idx =
  if eqb (a, b) pair then idx :: substitute rest pair idx
  else a :: substitute (b :: rest) pair idx.
Proof. reflexivity. Qed.

Lemma merge_loop_substitute (fuel : nat) :
  forall (numbers : list Z) (pair : Z * Z) (idx : Z) (i : nat) (result : list Z),
    (length numbers - i <= fuel)%nat ->
    merge_loop fuel numbers pair idx i result =
    result ++ substitute (skipn i numbers) pair idx.
Proof.
  induction fuel as [|fuel IH]; intros numbers pair idx i result Hfuel.
  - simpl. rewrite skipn_all2 by lia. simpl. now rewrite app_nil_r.
  - cbn [merge_loop].
    destruct (i <? length numbers)%nat eqn:Hi.
    + apply Nat.ltb_lt in Hi. rewrite (skipn_item numbers i Hi).
      destruct (i <? length numbers - 1)%nat eqn:Hi1.
      * apply Nat.ltb_lt in Hi1.
        assert (S i < length numbers)%nat as Hi2 by lia.
        rewrite (skipn_item numbers (S i) Hi2), substitute_cons2.
        cbn [andb].
        destruct (eqb (item numbers i, item numbers (S i)) pair).
        -- rewrite IH by lia. replace (i + 2)%nat with (S (S i)) by lia.
           now rewrite <- app_assoc.
        -- rewrite IH by lia. replace (i + 1)%nat with (S i) by lia.
           rewrite (skipn_item numbers (S i) Hi2). now rewrite <- app_assoc.
      * apply Nat.ltb_ge in Hi1. cbn [andb].
        rewrite IH by lia. replace (i + 1)%nat with (S i) by lia.
        rewrite skipn_all2 by lia. simpl. now rewrite app_nil_r.
    + apply Nat.ltb_ge in Hi. rewrite skipn_all2 by lia. simpl.
      now rewrite app_nil_r.
Qed.

Lemma merge_substitute (numbers : list Z) (pair : Z * Z) (idx : Z) :
  merge numbers pair idx = substitute numbers pair idx.
Proof.
  unfold merge. rewrite merge_loop_substitute by lia. reflexivity.
Qed.

(** Induction that follows the scan: one or two elements at a time. *)
Lemma scan_ind (P : list Z -> Prop) :
  P [] ->
  (forall a, P [a]) ->
  (forall a b rest, P rest -> P (b :: rest) -> P (a :: b :: rest)) ->
  forall l, P l.
Proof.
  intros H0 H1 H2.
  assert (forall l, P l /\ forall a, P (a :: l)) as G.
  { induction l as [|b l [IH1 IH2]]; split; auto. }
  intros l. apply G.
Qed.

Lemma substitute_length_le (pair : Z * Z) (idx : Z) (l : list Z) :
  (length (substitute l pair idx) <= length l)%nat.
Proof.
  induction l as [| a | a b rest IH1 IH2] using scan_ind; auto.
  rewrite substitute_cons2.
  destruct (eqb (a, b) pair); simpl in *; lia.
Qed.

Lemma occurrences_cons2 (p : Z * Z) (a b : Z) (rest : list Z) :
  occurrences p (a :: b :: rest) =
  (if eqb (a, b) p then 1 else 0) + occurrences p (b :: rest).
Proof. reflexivity. Qed.

Lemma occurrences_nonneg (p : Z * Z) (l : list Z) : 0 <= occurrences p l.
Proof.
  induction l as [| a | a b rest IH1 IH2] using scan_ind;
    try (simpl; lia).
  rewrite occurrences_cons2. destruct (eqb (a, b) p); lia.
Qed.

Lemma substitute_length_lt (pair : Z * Z) (idx : Z) (l : list Z) :
  0 < occurrences pair l ->
  (length (substitute l pair idx) < length l)%nat.
Proof.
  induction l as [| a | a b rest IH1 IH2] using scan_ind;
    try (simpl; lia).
  rewrite occurrences_cons2, substitute_cons2.
  destruct (eqb (a, b) pair).
  - intros _. pose proof (substitute_length_le pair idx rest). simpl. lia.
  - intros O. simpl in *. apply IH2 in O. lia.
Qed.

Lemma substitute_In (pair : Z * Z) (idx : Z) (l : list Z) (x : Z) :
  In x (substitute l pair idx) -> x = idx \/ In x l.
Proof.
  induction l as [| a | a b rest IH1 IH2] using scan_ind; auto.
  rewrite substitute_cons2.
  destruct (eqb (a, b) pair); simpl.
  - intros [E | I]; auto. apply IH1 in I. tauto.
  - intros [E | I]; auto. apply IH2 in I. simpl in I. tauto.
Qed.

(** ** [count_pairs] tallies the adjacent pairs *)

Lemma item_cons (a : Z) (l : list Z) (i : nat) : item (a :: l) (S i) = item l i.
Proof. reflexivity. Qed.

Lemma positions_adjacent (ids : list Z) :
  map (fun i => (item ids i, item ids (S i))) (pair_positions ids) = adjacent ids.
Proof.
  unfold pair_positions.
  induction ids as [|a [|b rest] IH]; auto.
  change (adjacent (a :: b :: rest)) with ((a, b) :: adjacent (b :: rest)).
  rewrite <- IH. cbn [length Nat.sub]. rewrite Nat.sub_0_r.
  cbn [seq map]. f_equal. rewrite <- seq_shift, map_map. reflexivity.
Qed.

Lemma fold_left_map_arg {A B C : Type} (f : A -> C -> A) (g : B -> C)
      (l : list B) (a : A) :
  fold_left (fun acc x => f acc (g x)) l a = fold_left f (map g l) a.
Proof. revert a. induction l; simpl; auto. Qed.

Lemma count_pairs_fold (data : list (list Z)) :
  count_pairs data = fold_left bump (concat (map adjacent data)) [].
Proof.
  unfold count_pairs. generalize (@nil ((Z * Z) * Z)) as acc.
  induction data as [|ids data IH]; intros acc; simpl; auto.
  rewrite fold_left_app, <- positions_adjacent, <- fold_left_map_arg.
  apply IH.
Qed.

Lemma tally_nonneg (p : Z * Z) (ps : list (Z * Z)) : 0 <= tally p ps.
Proof. induction ps as [|q ps IH]; simpl; [lia|]. destruct (eqb q p); lia. Qed.

Lemma tally_app (p : Z * Z) (ps qs : list (Z * Z)) :
  tally p (ps ++ qs) = tally p ps + tally p qs.
Proof. induction ps as [|q ps IH]; simpl; lia. Qed.

Lemma tally_pos_In (p : Z * Z) (ps : list (Z * Z)) : 0 < tally p ps <-> In p ps.
Proof.
  induction ps as [|q ps IH]; simpl; [split; [lia | tauto]|].
  pose proof (tally_nonneg p ps).
  destruct (eqb q p) eqn:E.
  - apply eqb_eq in E. split; auto. lia.
  - apply eqb_neq in E. rewrite <- IH. split; [intros; right; lia|].
    intros [C | O]; [contradiction | lia].
Qed.

Lemma tally_adjacent (p : Z * Z) (ids : list Z) :
  tally p (adjacent ids) = occurrences p ids.
Proof.
  induction ids as [|a [|b rest] IH]; auto.
  rewrite occurrences_cons2, <- IH. reflexivity.
Qed.

Lemma tally_batch (p : Z * Z) (data : list (list Z)) :
  tally p (concat (map adjacent data)) = batch_occurrences p data.
Proof.
  induction data as [|ids data IH]; simpl; auto.
  now rewrite tally_app, tally_adjacent, IH.
Qed.

Lemma get_bump (d : dict (Z * Z) Z) (q p : Z * Z) :
  get (bump d q) p =
  if eqb q p then Some (get_default d p 0 + 1) else get d p.
Proof.
  unfold bump. destruct (eqb q p) eqn:E.
  - apply eqb_eq in E; subst. apply get_set_same.
  - apply eqb_neq in E. now apply get_set_other.
Qed.

(** Entries of a tally are positive; a key is present exactly when it was
    counted at least once. *)
Lemma get_fold_bump (ps : list (Z * Z)) :
  forall (d : dict (Z * Z) Z) (p : Z * Z),
    get (fold_left bump ps d) p =
    match get d p with
    | Some v => Some (v + tally p ps)
    | None => if 0 <? tally p ps then Some (tally p ps) else None
    end.
Proof.
  induction ps as [|q ps IH]; intros d p; simpl.
  - destruct (get d p); [f_equal; lia | reflexivity].
  - rewrite IH, get_bump. pose proof (tally_nonneg p ps).
    destruct (eqb q p) eqn:E.
    + unfold get_default. destruct (get d p).
      * f_equal; lia.
      * destruct (0 <? 1 + tally p ps) eqn:L; [f_equal; lia|].
        apply Z.ltb_ge in L; lia.
    + destruct (get d p); [f_equal; lia | reflexivity].
Qed.

Lemma get_count_pairs (data : list (list Z)) (p : Z * Z) :
  get (count_pairs data) p =
  if 0 <? batch_occurrences p data then Some (batch_occurrences p data)
  else None.
Proof.
  rewrite count_pairs_fold, get_fold_bump, tally_batch. reflexivity.
Qed.

Lemma NoDup_keys_fold_bump (ps : list (Z * Z)) :
  forall d : dict (Z * Z) Z,
    NoDup (keys d) -> NoDup (keys (fold_left bump ps d)).
Proof.
  induction ps as [|q ps IH]; intros d N; simpl; auto.
  apply IH. unfold bump. now apply NoDup_keys_set.
Qed.

Lemma NoDup_keys_count_pairs (data : list (list Z)) :
  NoDup (keys (count_pairs data)).
Proof.
  rewrite count_pairs_fold. apply NoDup_keys_fold_bump. constructor.
Qed.

Lemma In_keys_count_pairs (data : list (list Z)) (p : Z * Z) :
  In p (keys (count_pairs data)) <-> 0 < batch_occurrences p data.
Proof.
  rewrite <- contains_In. unfold contains. rewrite get_count_pairs.
  destruct (0 <? batch_occurrences p data) eqn:L.
  - apply Z.ltb_lt in L. tauto.
  - apply Z.ltb_ge in L. split; [discriminate | lia].
Qed.

Lemma batch_occurrences_pos (p : Z * Z) (data : list (list Z)) :
  0 < batch_occurrences p data <->
  exists ids, In ids data /\ 0 < occurrences p ids.
Proof.
  induction data as [|ids data IH]; simpl.
  - split; [lia | intros (? & [] & _)].
  - pose proof (occurrences_nonneg p ids).
    split.
    + intros L. destruct (Z.ltb_spec 0 (occurrences p ids)) as [O | O].
      * exists ids; auto.
      * assert (0 < batch_occurrences p data) as B by lia.
        apply IH in B. destruct B as (x & I & O'). exists x; auto.
    + intros (x & [E | I] & O).
      * subst. clear IH.
        assert (0 <= batch_occurrences p data); [|lia].
        rewrite <- tally_batch. apply tally_nonneg.
      * assert (0 < batch_occurrences p data) by (apply IH; eauto). lia.
Qed.

Lemma adjacent_In (a b : Z) (ids : list Z) :
  In (a, b) (adjacent ids) -> In a ids /\ In b ids.
Proof.
  induction ids as [|x [|y rest] IH]; simpl; try tauto.
  intros [E | I].
  - inversion E; subst; auto.
  - apply IH in I. simpl in I. tauto.
Qed.

Lemma occurrences_pos_In (a b : Z) (ids : list Z) :
  0 < occurrences (a, b) ids -> In a ids /\ In b ids.
Proof.
  rewrite <- tally_adjacent, tally_pos_In. apply adjacent_In.
Qed.

(** ** [max] with the key [(cnt[p], sum(p))] *)

Lemma tuple_gt_true (x y : Z * Z) : tuple_gt x y = true <-> key_lt y x.
Proof.
  unfold tuple_gt, key_lt.
  rewrite orb_true_iff, andb_true_iff, !Z.ltb_lt, Z.eqb_eq. lia.
Qed.

Lemma tuple_gt_false (x y : Z * Z) : tuple_gt x y = false <-> ~ key_lt y x.
Proof.
  rewrite <- tuple_gt_true. destruct (tuple_gt x y); split; congruence.
Qed.

Section MaxFacts.
Context {A : Type} (k : A -> Z * Z).
Let gt (p q : A) : bool := tuple_gt (k p) (k q).

(** [max_from] returns the first element of the list whose key no other
    element exceeds. *)
Lemma max_from_split (l : list A) :
  forall best : A,
  exists before after,
    best :: l = before ++ max_from gt best l :: after
    /\ (forall x, In x before -> key_lt (k x) (k (max_from gt best l)))
    /\ (forall x, In x after -> ~ key_lt (k (max_from gt best l)) (k x)).
Proof.
  induction l as [|x l IH]; intros best.
  - exists [], []. simpl. tauto.
  - cbn [max_from]. destruct (gt x best) eqn:G; unfold gt in G.
    + apply tuple_gt_true in G.
      destruct (IH x) as (b & a & E & Hb & Ha).
      exists (best :: b), a. split; [simpl; now rewrite <- E|]. split; auto.
      intros y [<- | I]; auto.
      destruct b as [|x' b]; simpl in E; injection E as E1 E2.
      * now rewrite <- E1.
      * subst x'.
        assert (key_lt (k x) (k (max_from gt x l))) by (apply Hb; simpl; auto).
        unfold key_lt in *. lia.
    + apply tuple_gt_false in G.
      destruct (IH best) as (b & a & E & Hb & Ha).
      destruct b as [|best' b]; simpl in E; injection E as E1 E2.
      * exists [], (x :: l). split; [simpl; congruence|].
        split; [simpl; tauto|].
        intros y [<- | I].
        -- now rewrite <- E1.
        -- apply Ha. now rewrite <- E2.
      * subst best'. exists (best :: x :: b), a.
        split; [simpl; congruence|]. split; auto.
        intros y [<- | [<- | I]].
        -- apply Hb; simpl; auto.
        -- assert (key_lt (k best) (k (max_from gt best l)))
             by (apply Hb; simpl; auto).
           unfold key_lt in *. lia.
        -- apply Hb; simpl; auto.
Qed.

Lemma py_max_split (l : list A) (r : A) :
  py_max gt l = Ok r ->
  exists before after,
    l = before ++ r :: after
    /\ (forall x, In x before -> key_lt (k x) (k r))
    /\ (forall x, In x after -> ~ key_lt (k r) (k x)).
Proof.
  destruct l as [|x l]; simpl; [discriminate|].
  intros E; inversion E; subst. apply max_from_split.
Qed.

End MaxFacts.

Lemma select_pair_split (cnt : dict (Z * Z) Z) (p : Z * Z) :
  select_pair cnt = Ok p ->
  exists before after,
    keys cnt = before ++ p :: after
    /\ (forall q, In q before -> key_lt (pair_key cnt q) (pair_key cnt p))
    /\ (forall q, In q after -> ~ key_lt (pair_key cnt p) (pair_key cnt q)).
Proof. apply (py_max_split (pair_key cnt)). Qed.

Lemma select_pair_In (cnt : dict (Z * Z) Z) (p : Z * Z) :
  select_pair cnt = Ok p -> In p (keys cnt).
Proof.
  intros S. destruct (select_pair_split _ _ S) as (b & a & E & _).
  rewrite E. apply in_elt.
Qed.

Lemma select_pair_cases (cnt : dict (Z * Z) Z) :
  (cnt = [] /\ select_pair cnt = Raise ValueError)
  \/ (cnt <> [] /\ exists p, select_pair cnt = Ok p).
Proof.
  destruct cnt as [|e cnt]; [left; auto|].
  right. split; [discriminate|]. unfold select_pair. simpl. eauto.
Qed.

(** A sequence with two elements or more has a pair to select, and the
    selected pair occurs in it. *)
Lemma select_pair_single (ids : list Z) :
  (1 < length ids)%nat ->
  exists p, select_pair (count_pairs [ids]) = Ok p /\ 0 < occurrences p ids.
Proof.
  intros L.
  destruct (select_pair_cases (count_pairs [ids])) as [[E _] | [_ [p S]]].
  - exfalso. destruct ids as [|a [|b rest]]; simpl in L; try lia.
    assert (In (a, b) (keys (count_pairs [a :: b :: rest]))) as I.
    { apply In_keys_count_pairs. cbn [batch_occurrences].
      rewrite occurrences_cons2.
      pose proof (occurrences_nonneg (a, b) (b :: rest)).
      rewrite eqb_refl. lia. }
    rewrite E in I. destruct I.
  - exists p. split; auto.
    apply select_pair_In, In_keys_count_pairs in S.
    cbn [batch_occurrences] in S. lia.
Qed.

(** ** UTF-8: decoding undoes encoding *)

Ltac zdm := Z.to_euclidean_division_equations; lia.

Ltac decide_tests :=
  repeat (match goal with
          | |- context [Z.ltb ?a ?b] =>
              destruct (Z.ltb_spec a b); try (exfalso; zdm)
          | |- context [Z.leb ?a ?b] =>
              destruct (Z.leb_spec a b); try (exfalso; zdm)
          | |- context [Z.eqb ?a ?b] =>
              destruct (Z.eqb_spec a b); try (exfalso; zdm)
          end; cbn [andb orb negb]).

Lemma Ok_inj {A : Type} (a b : A) : Ok a = Ok b -> a = b.
Proof. congruence. Qed.

Lemma is_scalar_range (cp : Z) :
  Utf8.is_scalar cp = true <->
  (0 <= cp < 0xD800 \/ 0xDFFF < cp <= 0x10FFFF).
Proof.
  unfold Utf8.is_scalar, Utf8.is_surrogate.
  rewrite !andb_true_iff, negb_true_iff, andb_false_iff,
    !Z.leb_le, !Z.leb_gt. lia.
Qed.

Lemma encode_char_Ok (cp : Z) (bs : bytes) :
  Utf8.encode_char cp = Ok bs -> Utf8.is_scalar cp = true.
Proof.
  unfold Utf8.encode_char. destruct (Utf8.is_scalar cp); simpl; congruence.
Qed.

Lemma encode_char_scalar (cp : Z) :
  Utf8.is_scalar cp = true -> exists bs, Utf8.encode_char cp = Ok bs.
Proof.
  intros S. unfold Utf8.encode_char. rewrite S. cbn [negb].
  repeat match goal with |- context [if ?c then _ else _] => destruct c end;
    eauto.
Qed.

Lemma encode_char_bytes (cp : Z) (bs : bytes) :
  Utf8.encode_char cp = Ok bs -> Forall is_byte bs.
Proof.
  intros E. pose proof (encode_char_Ok _ _ E) as S.
  unfold Utf8.encode_char in E. rewrite S in E. cbn [negb] in E.
  apply is_scalar_range in S. unfold is_byte. revert E.
  destruct (Z.ltb_spec cp 0x80);
    [|destruct (Z.ltb_spec cp 0x800); [|destruct (Z.ltb_spec cp 0x10000)]];
    intros E; apply Ok_inj in E; subst bs;
    repeat (apply Forall_cons; [zdm|]); apply Forall_nil.
Qed.

Lemma decode_encode_char (cp : Z) (bs rest : bytes) :
  Utf8.encode_char cp = Ok bs ->
  Utf8.decode (bs ++ rest) = cp :: Utf8.decode rest.
Proof.
  intros E. pose proof (encode_char_Ok _ _ E) as S.
  unfold Utf8.encode_char in E. rewrite S in E. cbn [negb] in E.
  apply is_scalar_range in S. revert E.
  destruct (Z.ltb_spec cp 0x80);
    [|destruct (Z.ltb_spec cp 0x800); [|destruct (Z.ltb_spec cp 0x10000)]];
    intros E; apply Ok_inj in E; subst bs;
    cbn [app Utf8.decode]; unfold Utf8.is_continuation;
    decide_tests; f_equal; zdm.
Qed.

Lemma encode_Ok_inv (text : str) (bs : bytes) :
  Utf8.encode text = Ok bs ->
  Forall (fun cp => Utf8.is_scalar cp = true) text
  /\ Forall is_byte bs
  /\ Utf8.decode bs = text.
Proof.
  revert bs. induction text as [|cp text IH]; intros bs; simpl.
  - intros E; injection E as <-. auto.
  - destruct (Utf8.encode_char cp) as [b| |] eqn:Ec; simpl; try discriminate.
    destruct (Utf8.encode text) as [bs'| |] eqn:Et; simpl; try discriminate.
    intros E; injection E as <-.
    destruct (IH _ eq_refl) as (F1 & F2 & D).
    repeat split.
    + constructor; auto. eapply encode_char_Ok; eauto.
    + apply Forall_app. split; auto. eapply encode_char_bytes; eauto.
    + rewrite (decode_encode_char _ _ _ Ec). now rewrite D.
Qed.

Lemma encode_scalar (text : str) :
  Forall (fun cp => Utf8.is_scalar cp = true) text ->
  exists bs, Utf8.encode text = Ok bs.
Proof.
  induction 1 as [|cp text S F [bs IH]]; simpl; eauto.
  destruct (encode_char_scalar _ S) as [b ->]. rewrite IH. simpl. eauto.
Qed.

(** [encode] either returns or raises [UnicodeEncodeError]. *)
Lemma encode_outcome (text : str) :
  (exists bs, Utf8.encode text = Ok bs)
  \/ Utf8.encode text = Raise UnicodeEncodeError.
Proof.
  induction text as [|cp text IH]; simpl; eauto.
  unfold Utf8.encode_char.
  destruct (negb (Utf8.is_scalar cp)); simpl; auto.
  repeat match goal with
         | |- context [if ?c then _ else _] => destruct c
         end; simpl; destruct IH as [[bs ->] | ->]; simpl; eauto.
Qed.

(** ** The base vocabulary *)

Lemma byte_init_vocab (self : ByteTokenizer.t) :
  ByteTokenizer.init_vocab self = (base_tokenizer, Ok tt).
Proof. destruct self. vm_compute. reflexivity. Qed.

Lemma bpe_init_vocab (self : BpeTokenizer.t) :
  BpeTokenizer.init_vocab self = (BpeTokenizer.mk base_tokenizer [], Ok tt).
Proof.
  unfold BpeTokenizer.init_vocab, bindM, BpeTokenizer.super, modify.
  rewrite byte_init_vocab. reflexivity.
Qed.

Lemma bpe_new : BpeTokenizer.new = BpeTokenizer.mk base_tokenizer [].
Proof.
  unfold BpeTokenizer.new, BpeTokenizer.init, bindM, modify.
  now rewrite bpe_init_vocab.
Qed.

Lemma In_range (n x : Z) : In x (range n) <-> 0 <= x < n.
Proof.
  unfold range. rewrite in_map_iff. split.
  - intros (i & <- & I). apply in_seq in I. lia.
  - intros R. exists (Z.to_nat x). split; [lia|]. apply in_seq. lia.
Qed.

Lemma range_succ (n : Z) : 0 <= n -> range (n + 1) = range n ++ [n].
Proof.
  intros N. unfold range.
  replace (Z.to_nat (n + 1)) with (Z.to_nat n + 1)%nat by lia.
  rewrite seq_app, map_app. simpl. f_equal. f_equal. lia.
Qed.

Lemma base_vocab_bytes (b : Z) : 0 <= b < 256 -> get base_vocab b = Some [b].
Proof.
  intros R.
  assert (forallb (fun x => match get base_vocab x with
                            | Some [y] => y =? x
                            | _ => false
                            end) (range 256) = true) as F
      by (vm_compute; reflexivity).
  rewrite forallb_forall in F. apply In_range in R. apply F in R.
  destruct (get base_vocab b) as [[|y [|? ?]]|]; try discriminate.
  apply Z.eqb_eq in R. now subst.
Qed.

(** ** Invariant of a tokenizer *)

Lemma wf_base : wf (BpeTokenizer.mk base_tokenizer []).
Proof.
  split.
  - vm_compute. reflexivity.
  - apply base_vocab_bytes.
  - simpl. discriminate.
Qed.

Lemma contains_range (v : dict Z bytes) (x : Z) :
  keys v = range (len v) -> (contains v x = true <-> 0 <= x < len v).
Proof. intros E. rewrite contains_In, E. apply In_range. Qed.

Lemma len_nonneg {K V : Type} (d : dict K V) : 0 <= len d.
Proof. unfold len. lia. Qed.

Lemma len_set_fresh (v : dict Z bytes) (x : Z) (e : bytes) :
  contains v x = false -> len (set v x e) = len v + 1.
Proof. intros C. unfold len. rewrite length_set, C. lia. Qed.

Lemma wf_len (self : BpeTokenizer.t) :
  wf self -> 256 <= len (BpeTokenizer.vocab self).
Proof.
  intros W.
  assert (contains (BpeTokenizer.vocab self) 255 = true) as C.
  { unfold contains. rewrite (wf_bytes _ W) by lia. reflexivity. }
  apply contains_range in C; [lia | apply W].
Qed.

(** ** One training iteration *)


Lemma vocab_set_vocab (v : dict Z bytes) (self : t) : vocab (set_vocab v self) = v.
Proof. reflexivity. Qed.

Lemma vocab_set_merges (m : dict (Z * Z) Z) (self : t) :
  vocab (set_merges m self) = vocab self.
Proof. reflexivity. Qed.

Lemma merges_set_vocab (v : dict Z bytes) (self : t) :
  merges (set_vocab v self) = merges self.
Proof. reflexivity. Qed.

Lemma merges_set_merges (m : dict (Z * Z) Z) (self : t) :
  merges (set_merges m self) = m.
Proof. reflexivity. Qed.

Lemma known_merge (v : dict Z bytes) (ids : list Z) (p : Z * Z) (idx : Z)
      (e : bytes) :
  contains v idx = false ->
  known v ids -> known (set v idx e) (merge ids p idx).
Proof.
  intros Fresh Kn. unfold known in *. rewrite Forall_forall in *.
  intros x I. rewrite merge_substitute in I. apply substitute_In in I.
  unfold contains.
  destruct (Z.eq_dec idx x) as [<- | N].
  - now rewrite get_set_same.
  - rewrite get_set_other by auto. destruct I as [-> | I]; [congruence|].
    apply Kn in I. exact I.
Qed.

Lemma selected_known (v : dict Z bytes) (seqs : list (list Z)) (p : Z * Z) :
  Forall (known v) seqs ->
  select_pair (count_pairs seqs) = Ok p ->
  contains v (fst p) = true /\ contains v (snd p) = true.
Proof.
  intros Kn S. apply select_pair_In, In_keys_count_pairs in S.
  apply batch_occurrences_pos in S. destruct S as (ids & I & O).
  destruct p as [a b]. apply occurrences_pos_In in O.
  rewrite Forall_forall in Kn. apply Kn in I. unfold known in I.
  rewrite Forall_forall in I. simpl. split; apply I; tauto.
Qed.

Lemma contains_get {K V : Type} `{EqbLaw K} (d : dict K V) (k : K) :
  contains d k = true -> exists v, get d k = Some v.
Proof. unfold contains. destruct (get d k); eauto. discriminate. Qed.

(** What one iteration does, from a well-formed tokenizer whose training
    sequences use known ids only. *)
Lemma train_step_inv (seqs : list (list Z)) (self : t) :
  wf self -> Forall (known (vocab self)) seqs ->
  match train_step seqs self with
  | (self', Ok (Continue seqs')) =>
      wf self' /\ Forall (known (vocab self')) seqs'
      /\ len (vocab self') = len (vocab self) + 1
      /\ exists p, select_pair (count_pairs seqs) = Ok p
                   /\ get (merges self') p = Some (len (vocab self))
                   /\ seqs' = map (fun ids => merge ids p (len (vocab self))) seqs
  | (self', Ok (Break p)) =>
      self' = self /\ select_pair (count_pairs seqs) = Ok p
      /\ get (count_pairs seqs) p = Some 1
  | (self', Raise e) =>
      self' = self /\ e = ValueError /\ count_pairs seqs = []
  | (_, OutOfFuel) => False
  end.
Proof.
  intros W Kn. unfold train_step, bindM, lift.
  destruct (select_pair_cases (count_pairs seqs)) as [[E ->] | [_ [p S]]];
    [auto|].
  rewrite S.
  destruct (In_keys_get _ _ (select_pair_In _ _ S)) as [freq G].
  unfold getitem at 1. rewrite G.
  destruct (freq =? 1) eqn:F.
  { apply Z.eqb_eq in F. subst. unfold ret. auto. }
  unfold read, modify, ret. cbn [fst snd].
  destruct (selected_known _ _ _ Kn S) as [Ca Cb].
  destruct (contains_get _ _ Ca) as [l Gl], (contains_get _ _ Cb) as [r Gr].
  unfold getitem. rewrite !vocab_set_merges, Gl, Gr.
  set (n := len (vocab self)).
  assert (contains (vocab self) n = false) as Fresh.
  { destruct (contains (vocab self) n) eqn:C; auto.
    apply contains_range in C; [lia | apply W]. }
  assert (forall x, contains (vocab self) x = true -> n <> x) as Old.
  { intros x C <-. congruence. }
  split; [|split; [|split]].
  - split; rewrite ?vocab_set_vocab.
    + rewrite keys_set, Fresh, len_set_fresh by auto.
      rewrite range_succ by apply len_nonneg. f_equal. apply W.
    + intros b R. rewrite get_set_other; [apply W; auto|].
      pose proof (wf_len _ W) as HL. fold n in HL. lia.
    + intros q idx Gq. rewrite merges_set_vocab, merges_set_merges in Gq.
      destruct (eqb p q) eqn:Epq.
      * apply eqb_eq in Epq. subst q. rewrite get_set_same in Gq.
        injection Gq as <-. exists l, r.
        rewrite !get_set_other by auto. rewrite get_set_same. auto.
      * apply eqb_neq in Epq. rewrite get_set_other in Gq by auto.
        destruct (wf_merges _ W _ _ Gq) as (l' & r' & G1 & G2 & G3).
        exists l', r'.
        rewrite !get_set_other; auto; apply Old; unfold contains;
          now rewrite ?G1, ?G2, ?G3.
  - rewrite vocab_set_vocab. rewrite Forall_forall in *.
    intros ids' I. apply in_map_iff in I. destruct I as (ids & <- & I).
    apply known_merge; auto.
  - rewrite vocab_set_vocab. now apply len_set_fresh.
  - exists p. split; auto. split; auto.
    rewrite merges_set_vocab, merges_set_merges. apply get_set_same.
Qed.

(** An iteration never shrinks the vocabulary, whatever the tokenizer. *)
Lemma train_step_size (seqs : list (list Z)) (self : t) :
  len (vocab self) <= len (vocab (fst (train_step seqs self))).
Proof.
  unfold train_step, bindM, lift, read, modify, ret.
  destruct (select_pair (count_pairs seqs)) as [p| |]; cbn [fst]; try lia.
  destruct (getitem (count_pairs seqs) p) as [freq| |]; cbn [fst]; try lia.
  destruct (freq =? 1); cbn [fst]; try lia.
  rewrite !vocab_set_merges.
  destruct (getitem (vocab self) (fst p)); cbn [fst];
    rewrite ?vocab_set_merges; try lia.
  destruct (getitem (vocab self) (snd p)); cbn [fst];
    rewrite ?vocab_set_merges; try lia.
  rewrite vocab_set_vocab. unfold len.
  pose proof (length_set_ge (vocab self) (len (vocab self)) (a ++ a0)).
  unfold len in *. lia.
Qed.

(** ** The training loop *)

Lemma train_loop_inv (n : nat) :
  forall (seqs : list (list Z)) (self : t),
    wf self -> Forall (known (vocab self)) seqs ->
    wf (fst (train_loop n seqs self))
    /\ len (vocab self) <= len (vocab (fst (train_loop n seqs self)))
       <= len (vocab self) + Z.of_nat n
    /\ loop_post (len (vocab self)) n (fst (train_loop n seqs self))
                 (snd (train_loop n seqs self)).
Proof.
  induction n as [|n IH]; intros seqs self W Kn.
  - cbn [train_loop]. unfold ret. cbn [fst snd loop_post].
    split; [exact W|]. split; lia.
  - cbn [train_loop]. unfold bindM.
    pose proof (train_step_inv seqs self W Kn) as St.
    destruct (train_step seqs self) as [self1 [[seqs1 | p] | e |]] eqn:Step.
    + destruct St as (W1 & Kn1 & L1 & _).
      destruct (IH seqs1 self1 W1 Kn1) as (W2 & L2 & P2).
      split; [auto|]. split; [lia|].
      unfold loop_post in *.
      destruct (snd (train_loop n seqs1 self1)) as [[| |q]|e|]; auto. lia.
    + destruct St as (-> & S & G). unfold ret. cbn [fst snd].
      split; [auto|]. split; [lia|]. exists seqs. auto.
    + destruct St as (-> & -> & E). cbn [fst snd].
      split; [auto|]. split; [lia|]. reflexivity.
    + destruct St.
Qed.

Lemma encode_texts_outcome (texts : list str) :
  (exists seqs, encode_texts texts = Ok seqs /\ Forall (Forall is_byte) seqs)
  \/ encode_texts texts = Raise UnicodeEncodeError.
Proof.
  induction texts as [|text texts IH]; simpl.
  - left. exists []. auto.
  - destruct (encode_outcome text) as [[bs E] | E]; rewrite E; simpl; auto.
    destruct IH as [(seqs & -> & F) | ->]; simpl; auto.
    left. exists (bs :: seqs). split; auto. constructor; auto.
    apply (encode_Ok_inv text bs E).
Qed.

Lemma known_bytes (self : t) (bs : bytes) :
  wf self -> Forall is_byte bs -> known (vocab self) bs.
Proof.
  intros W. apply Forall_impl. intros b B. unfold contains.
  now rewrite (wf_bytes _ W b B).
Qed.

Lemma len_base_vocab : len base_vocab = 259.
Proof. reflexivity. Qed.

Lemma train_inv (texts : list str) (max_vocab : Z) (self : t) :
  wf (fst (train texts max_vocab self))
  /\ 259 <= len (vocab (fst (train texts max_vocab self)))
  /\ (259 <= max_vocab ->
      len (vocab (fst (train texts max_vocab self))) <= max_vocab)
  /\ train_post max_vocab (fst (train texts max_vocab self))
                (snd (train texts max_vocab self)).
Proof.
  unfold train, bindM. rewrite bpe_init_vocab. unfold read.
  change (len (vocab (mk base_tokenizer []))) with 259.
  destruct (Z.leb_spec max_vocab 259) as [L | L].
  - unfold ret. cbn [fst snd train_post].
    split; [apply wf_base|].
    change (len (vocab (mk base_tokenizer []))) with 259.
    repeat split; auto; lia.
  - unfold lift.
    destruct (encode_texts_outcome texts) as [(seqs & -> & F) | ->].
    + assert (Forall (known (vocab (mk base_tokenizer []))) seqs) as Kn.
      { revert F. apply Forall_impl. intros ids. apply known_bytes, wf_base. }
      destruct (train_loop_inv (Z.to_nat (max_vocab - 259)) seqs
                               (mk base_tokenizer []) wf_base Kn)
        as (W & B & P).
      change (len (vocab (mk base_tokenizer []))) with 259 in *.
      split; [auto|]. split; [lia|]. split; [lia|].
      unfold loop_post, train_post in *.
      destruct (snd (train_loop (Z.to_nat (max_vocab - 259)) seqs
                                (mk base_tokenizer [])))
        as [[| |q]|e|]; try contradiction; (split; [lia|]); auto; lia.
    + cbn [fst snd train_post].
      split; [apply wf_base|].
      change (len (vocab (mk base_tokenizer []))) with 259.
      repeat split; auto; lia.
Qed.

Lemma reachable_wf (self : t) : reachable self -> wf self.
Proof.
  induction 1 as [|self texts max_vocab _ _].
  - rewrite bpe_new. exact wf_base.
  - exact (proj1 (train_inv texts max_vocab self)).
Qed.

(** ** Expanding ids to bytes *)

Lemma join_vocab_cons (v : dict Z bytes) (x : Z) (ids : list Z) (data : bytes) :
  ByteTokenizer.join_vocab v (x :: ids) = Ok data <->
  exists e rest,
    get v x = Some e /\ ByteTokenizer.join_vocab v ids = Ok rest
    /\ data = e ++ rest.
Proof.
  cbn [ByteTokenizer.join_vocab]. unfold getitem.
  destruct (get v x) as [e|]; simpl.
  - destruct (ByteTokenizer.join_vocab v ids) as [rest| |]; simpl.
    + split.
      * intros E. apply Ok_inj in E. eauto.
      * intros (e' & rest' & E1 & E2 & ->).
        injection E1 as <-. apply Ok_inj in E2. now subst.
    + split; [discriminate | intros (? & ? & _ & ? & _); discriminate].
    + split; [discriminate | intros (? & ? & _ & ? & _); discriminate].
  - split; [discriminate | intros (? & ? & ? & _); discriminate].
Qed.

(** Replacing a pair by an id that expands to the pair's bytes keeps the
    expansion of the sequence. *)
Lemma join_vocab_substitute (v : dict Z bytes) (p : Z * Z) (idx : Z)
      (l r : bytes) :
  get v (fst p) = Some l -> get v (snd p) = Some r ->
  get v idx = Some (l ++ r) ->
  forall (ids : list Z) (data : bytes),
    ByteTokenizer.join_vocab v ids = Ok data ->
    ByteTokenizer.join_vocab v (substitute ids p idx) = Ok data.
Proof.
  intros Gl Gr Gi ids.
  induction ids as [| a | a b rest IH1 IH2] using scan_ind; intros data J; auto.
  rewrite substitute_cons2.
  apply join_vocab_cons in J. destruct J as (ea & d1 & Ga & J1 & ->).
  destruct (eqb (a, b) p) eqn:E.
  - apply eqb_eq in E. subst p. cbn [fst snd] in *.
    apply join_vocab_cons in J1. destruct J1 as (eb & d2 & Gb & J2 & ->).
    apply join_vocab_cons. exists (l ++ r), d2.
    rewrite (IH1 _ J2). repeat split; auto.
    rewrite <- app_assoc. congruence.
  - apply join_vocab_cons. exists ea, d1. auto.
Qed.

Lemma join_vocab_bytes (v : dict Z bytes) (bs : bytes) :
  (forall b, is_byte b -> get v b = Some [b]) ->
  Forall is_byte bs -> ByteTokenizer.join_vocab v bs = Ok bs.
Proof.
  intros Hv. induction 1 as [|b bs B F IH]; auto.
  apply join_vocab_cons. exists [b], bs. auto.
Qed.

Lemma join_vocab_known (v : dict Z bytes) (ids : list Z) :
  (exists data, ByteTokenizer.join_vocab v ids = Ok data) <-> known v ids.
Proof.
  unfold known. induction ids as [|x ids IH].
  - split; [constructor | simpl; eauto].
  - split.
    + intros [data J]. apply join_vocab_cons in J.
      destruct J as (e & rest & G & J & _). constructor.
      * unfold contains. now rewrite G.
      * apply IH. eauto.
    + intros F. inversion F as [|? ? C F']; subst.
      apply IH in F'. destruct F' as [rest J].
      apply contains_get in C. destruct C as [e G].
      exists (e ++ rest). apply join_vocab_cons. eauto.
Qed.

(** [join_vocab] raises exactly [KeyError], and exactly when an id is
    missing. *)
Lemma join_vocab_outcome (v : dict Z bytes) (ids : list Z) :
  (exists data, ByteTokenizer.join_vocab v ids = Ok data)
  \/ (ByteTokenizer.join_vocab v ids = Raise KeyError
      /\ exists x, In x ids /\ contains v x = false).
Proof.
  induction ids as [|x ids IH]; simpl; eauto.
  unfold getitem, contains.
  destruct (get v x) as [e|] eqn:G; simpl.
  - destruct IH as [[data ->] | [-> (y & I & C)]]; simpl; eauto.
    right. split; auto. exists y. auto.
  - right. split; auto. exists x. rewrite G. auto.
Qed.

(** ** The encoding loop *)

Lemma encode_loop_terminates (merges : dict (Z * Z) Z) (fuel : nat) :
  forall ids : list Z,
    (length ids < fuel)%nat ->
    exists ids', encode_loop fuel merges ids = Ok ids'
                 /\ (length ids' <= length ids)%nat.
Proof.
  induction fuel as [|fuel IH]; intros ids L; [lia|].
  cbn [encode_loop].
  destruct (1 <? length ids)%nat eqn:L1; [|eauto].
  apply Nat.ltb_lt in L1.
  destruct (select_pair_single ids L1) as (p & -> & O). cbn [bind].
  unfold contains, getitem.
  destruct (get merges p) as [idx|]; cbn [negb bind]; [|eauto].
  pose proof (substitute_length_lt p idx ids O) as Lt.
  rewrite <- merge_substitute in Lt.
  destruct (IH (merge ids p idx)) as (ids' & E & Le); [lia|].
  exists ids'. split; auto. lia.
Qed.

Lemma encode_loop_join (self : t) (fuel : nat) :
  wf self ->
  forall (ids : list Z) (data : bytes),
    (length ids < fuel)%nat ->
    ByteTokenizer.join_vocab (vocab self) ids = Ok data ->
    exists ids', encode_loop fuel (merges self) ids = Ok ids'
                 /\ ByteTokenizer.join_vocab (vocab self) ids' = Ok data.
Proof.
  intros W. induction fuel as [|fuel IH]; intros ids data L J; [lia|].
  cbn [encode_loop].
  destruct (1 <? length ids)%nat eqn:L1; [|eauto].
  apply Nat.ltb_lt in L1.
  destruct (select_pair_single ids L1) as (p & -> & O). cbn [bind].
  unfold contains, getitem.
  destruct (get (merges self) p) as [idx|] eqn:G; cbn [negb bind]; [|eauto].
  pose proof (substitute_length_lt p idx ids O) as Lt.
  rewrite <- merge_substitute in Lt.
  destruct (wf_merges _ W _ _ G) as (l & r & Gl & Gr & Gi).
  apply (IH (merge ids p idx) data); [lia|].
  rewrite merge_substitute. eapply join_vocab_substitute; eauto.
Qed.

(** * The claims *)

Lemma bpe_encode_join (self : t) (text : str) (ids : list Z) :
  wf self -> encode self text = Ok ids ->
  exists data,
    Utf8.encode text = Ok data
    /\ ByteTokenizer.join_vocab (vocab self) ids = Ok data.
Proof.
  intros W E. unfold encode in E.
  destruct (Utf8.encode text) as [data| |] eqn:U; cbn [bind] in E;
    try discriminate.
  exists data. split; auto.
  destruct (encode_Ok_inv text data U) as (_ & B & _).
  assert (ByteTokenizer.join_vocab (vocab self) data = Ok data) as J.
  { apply join_vocab_bytes; auto. intros b Hb. now apply (wf_bytes _ W). }
  destruct (encode_loop_join self (S (length data)) W data data) as (ids' & E' & J');
    auto.
  rewrite E' in E. apply Ok_inj in E. now subst.
Qed.

Lemma bpe_round_trip (self : t) (T : str) :
  wf self -> Forall (fun cp => Utf8.is_scalar cp = true) T ->
  exists ids, encode self T = Ok ids /\ decode self ids = Ok T.
Proof.
  intros W V. destruct (encode_scalar T V) as [data U].
  destruct (encode_Ok_inv T data U) as (_ & B & D).
  assert (ByteTokenizer.join_vocab (vocab self) data = Ok data) as J.
  { apply join_vocab_bytes; auto. intros b Hb. now apply (wf_bytes _ W). }
  destruct (encode_loop_join self (S (length data)) W data data) as (ids & E & J');
    auto.
  exists ids. unfold encode, decode, ByteTokenizer.decode. rewrite U.
  cbn [bind]. split; auto. fold (vocab self). rewrite J'. cbn [bind].
  now rewrite D.
Qed.

Lemma byte_round_trip (T : str) :
  Forall (fun cp => Utf8.is_scalar cp = true) T ->
  exists ids, ByteTokenizer.encode base_tokenizer T = Ok ids
              /\ ByteTokenizer.decode base_tokenizer ids = Ok T.
Proof.
  intros V. destruct (encode_scalar T V) as [data U].
  destruct (encode_Ok_inv T data U) as (_ & B & D).
  exists data. unfold ByteTokenizer.encode, ByteTokenizer.decode. split; auto.
  change (ByteTokenizer.vocab base_tokenizer) with base_vocab.
  rewrite (join_vocab_bytes base_vocab data); auto.
  - cbn [bind]. now rewrite D.
  - intros b Hb. now apply base_vocab_bytes.
Qed.

(** C1.  Round trip: for every text [T] made of Unicode scalar values (the
    strings that have a UTF-8 encoding), [decode(encode(T)) == T], for
    a [ByteTokenizer] after construction or [train], and for every
    [BpeTokenizer] that was constructed and then trained any number of times
    on any corpus with any target size, whether [train] returned or raised. *)
Theorem round_trip_law (T : str) :
  Forall (fun cp => Utf8.is_scalar cp = true) T ->
  (forall (self0 : ByteTokenizer.t) (texts : list str) (max_vocab : Z),
      exists ids,
        ByteTokenizer.encode
          (fst (ByteTokenizer.train texts max_vocab self0)) T = Ok ids
        /\ ByteTokenizer.decode
             (fst (ByteTokenizer.train texts max_vocab self0)) ids = Ok T)
  /\ (exists ids,
        ByteTokenizer.encode (fst (ByteTokenizer.init ByteTokenizer.blank)) T
        = Ok ids
        /\ ByteTokenizer.decode (fst (ByteTokenizer.init ByteTokenizer.blank))
                                ids = Ok T)
  /\ (forall self : BpeTokenizer.t,
        reachable self ->
        exists ids, encode self T = Ok ids /\ decode self ids = Ok T).
Proof.
  intros V. split; [|split].
  - intros self0 texts max_vocab. unfold ByteTokenizer.train.
    rewrite byte_init_vocab. now apply byte_round_trip.
  - unfold ByteTokenizer.init. rewrite byte_init_vocab.
    now apply byte_round_trip.
  - intros self R. apply bpe_round_trip; auto. now apply reachable_wf.
Qed.

Lemma round_trip_law_witness :
  Forall (fun cp => Utf8.is_scalar cp = true) [1052; 1072; 8364; 128512; 97]
  /\ exists ids,
       encode (fst (train [[97; 97; 97; 97]] 300 new))
              [1052; 1072; 8364; 128512; 97] = Ok ids
       /\ decode (fst (train [[97; 97; 97; 97]] 300 new)) ids
          = Ok [1052; 1072; 8364; 128512; 97].
Proof.
  assert (Forall (fun cp => Utf8.is_scalar cp = true)
                 [1052; 1072; 8364; 128512; 97]) as V
      by (repeat constructor).
  split; [exact V|].
  apply (round_trip_law [1052; 1072; 8364; 128512; 97] V).
  apply reach_train, reach_new.
Defined.

(** C2.  [merge] is the greedy, left-to-right, non-overlapping substitution:
    on a match of the current and the next element it emits the replacement
    and advances two positions, otherwise it emits the current element and
    advances one; the three examples of the specification hold. *)
Theorem merge_greedy_left_to_right :
  (forall (pair : Z * Z) (idx : Z), merge [] pair idx = [])
  /\ (forall (a : Z) (pair : Z * Z) (idx : Z), merge [a] pair idx = [a])
  /\ (forall (a b : Z) (rest : list Z) (pair : Z * Z) (idx : Z),
         merge (a :: b :: rest) pair idx =
         if eqb (a, b) pair then idx :: merge rest pair idx
         else a :: merge (b :: rest) pair idx)
  /\ (forall (numbers : list Z) (pair : Z * Z) (idx : Z),
         merge numbers pair idx = substitute numbers pair idx)
  /\ merge [0; 0; 0; 1] (0, 0) 9 = [9; 0; 1]
  /\ merge [1; 2; 3; 2; 3; 4] (2, 3) 9 = [1; 9; 9; 4]
  /\ merge [1; 2; 2; 3; 4] (2, 3) 99 = [1; 2; 99; 4].
Proof.
  repeat split; try reflexivity.
  - intros. now rewrite !merge_substitute.
  - apply merge_substitute.
Qed.

Lemma get_default_count_pairs (data : list (list Z)) (p : Z * Z) :
  get_default (count_pairs data) p 0 = batch_occurrences p data.
Proof.
  unfold get_default. rewrite get_count_pairs.
  destruct (Z.ltb_spec 0 (batch_occurrences p data)) as [L | L]; auto.
  assert (0 <= batch_occurrences p data); [|lia].
  rewrite <- tally_batch. apply tally_nonneg.
Qed.

Lemma train_step_break (seqs : list (list Z)) (p : Z * Z) (self : t) :
  select_pair (count_pairs seqs) = Ok p ->
  get (count_pairs seqs) p = Some 1 ->
  train_step seqs self = (self, Ok (Break p)).
Proof.
  intros S G. unfold train_step, bindM, lift, getitem. rewrite S, G.
  reflexivity.
Qed.

Lemma train_step_records (seqs : list (list Z)) (p : Z * Z) (self : t) :
  select_pair (count_pairs seqs) = Ok p ->
  get (count_pairs seqs) p <> Some 1 ->
  get (merges (fst (train_step seqs self))) p = Some (len (vocab self)).
Proof.
  intros S G. unfold train_step, bindM, lift, read, modify, ret.
  rewrite S.
  destruct (In_keys_get _ _ (select_pair_In _ _ S)) as [freq Gf].
  unfold getitem at 1. rewrite Gf.
  destruct (freq =? 1) eqn:F.
  { apply Z.eqb_eq in F. subst. contradiction. }
  rewrite !vocab_set_merges.
  destruct (getitem (vocab self) (fst p)); cbn [fst];
    rewrite ?merges_set_merges; try apply get_set_same.
  destruct (getitem (vocab self) (snd p)); cbn [fst];
    rewrite ?merges_set_vocab, ?merges_set_merges; apply get_set_same.
Qed.

Lemma encode_loop_step (fuel : nat) (m : dict (Z * Z) Z) (ids : list Z)
      (p : Z * Z) :
  (1 < length ids)%nat ->
  select_pair (count_pairs [ids]) = Ok p ->
  encode_loop (S fuel) m ids =
  match get m p with
  | None => Ok ids
  | Some idx => encode_loop fuel m (merge ids p idx)
  end.
Proof.
  intros L S. cbn [encode_loop].
  apply Nat.ltb_lt in L. rewrite L, S. cbn [bind].
  unfold contains, getitem. destruct (get m p); reflexivity.
Qed.

(** C3 as stated fails: frequency and id sum do not always single out one
    pair.  In the corpus [[1,4],[2,3]] the pairs (1,4) and (2,3) both occur
    once and both sum to 5, so neither is above the other; the code returns
    the one counted first, and the same counts met in the other order give
    the other pair. *)
Lemma selection_tie_counterexample :
  ~ (forall (seqs : list (list Z)) (p q : Z * Z),
        select_pair (count_pairs seqs) = Ok p ->
        In q (keys (count_pairs seqs)) -> q <> p ->
        key_lt (pair_key (count_pairs seqs) q) (pair_key (count_pairs seqs) p))
  /\ select_pair (count_pairs [[1; 4]; [2; 3]]) = Ok (1, 4)
  /\ select_pair (count_pairs [[2; 3]; [1; 4]]) = Ok (2, 3)
  /\ (forall p, get (count_pairs [[1; 4]; [2; 3]]) p
                = get (count_pairs [[2; 3]; [1; 4]]) p).
Proof.
  split; [|split; [|split]]; try reflexivity.
  - intros H.
    specialize (H [[1; 4]; [2; 3]] (1, 4) (2, 3) eq_refl).
    assert (key_lt (1, 5) (1, 5)) as K.
    { apply H; [simpl; auto | discriminate]. }
    unfold key_lt in K. simpl in K. lia.
  - intros p. rewrite !get_count_pairs. cbn [batch_occurrences]. 
    replace (occurrences p [1; 4] + (occurrences p [2; 3] + 0))
      with (occurrences p [2; 3] + (occurrences p [1; 4] + 0)) by lia.
    reflexivity.
Qed.

(** C3, amended.  Among the adjacent pairs of the current sequences the
    selected pair has the highest frequency, and among the pairs of that
    frequency the largest id sum; pairs that tie on both are resolved in
    favour of the one counted first (the first to occur in scan order).
    Training and encoding select with this same rule: a training iteration
    breaks on or records exactly the selected pair, and an encoding iteration
    looks up exactly the selected pair in the merge table. *)
Theorem pair_selection_rule (seqs : list (list Z)) (p : Z * Z) :
  select_pair (count_pairs seqs) = Ok p ->
  (exists before after,
      keys (count_pairs seqs) = before ++ p :: after
      /\ (forall q, In q before ->
            batch_occurrences q seqs < batch_occurrences p seqs
            \/ (batch_occurrences q seqs = batch_occurrences p seqs
                /\ fst q + snd q < fst p + snd p))
      /\ (forall q, In q after ->
            batch_occurrences q seqs < batch_occurrences p seqs
            \/ (batch_occurrences q seqs = batch_occurrences p seqs
                /\ fst q + snd q <= fst p + snd p)))
  /\ (forall self : t,
        (batch_occurrences p seqs = 1 ->
         train_step seqs self = (self, Ok (Break p)))
        /\ (batch_occurrences p seqs <> 1 ->
            get (merges (fst (train_step seqs self))) p
            = Some (len (vocab self))))
  /\ (forall (ids : list Z) (fuel : nat) (m : dict (Z * Z) Z),
        seqs = [ids] -> (1 < length ids)%nat ->
        encode_loop (S fuel) m ids =
        match get m p with
        | None => Ok ids
        | Some idx => encode_loop fuel m (merge ids p idx)
        end).
Proof.
  intros S.
  assert (0 < batch_occurrences p seqs) as Pos.
  { apply In_keys_count_pairs. now apply select_pair_In. }
  split; [|split].
  - destruct (select_pair_split _ _ S) as (before & after & E & Hb & Ha).
    exists before, after. split; auto.
    unfold key_lt, pair_key in *.
    split; intros q I.
    + specialize (Hb q I). rewrite !get_default_count_pairs in Hb.
      exact Hb.
    + specialize (Ha q I). rewrite !get_default_count_pairs in Ha.
      cbn [fst snd] in Ha. lia.
  - intros self. split; intros F.
    + apply train_step_break; auto. rewrite get_count_pairs.
      destruct (Z.ltb_spec 0 (batch_occurrences p seqs)); [congruence | lia].
    + apply train_step_records; auto. rewrite get_count_pairs.
      destruct (Z.ltb_spec 0 (batch_occurrences p seqs)); congruence.
  - intros ids fuel m -> L. now apply encode_loop_step.
Qed.

Lemma pair_selection_rule_witness :
  select_pair (count_pairs [[1; 2; 3; 1; 2]; [2; 3]]) = Ok (2, 3)
  /\ exists before after,
      keys (count_pairs [[1; 2; 3; 1; 2]; [2; 3]]) = before ++ (2, 3) :: after
      /\ (forall q, In q before ->
            batch_occurrences q [[1; 2; 3; 1; 2]; [2; 3]]
            < batch_occurrences (2, 3) [[1; 2; 3; 1; 2]; [2; 3]]
            \/ (batch_occurrences q [[1; 2; 3; 1; 2]; [2; 3]]
                = batch_occurrences (2, 3) [[1; 2; 3; 1; 2]; [2; 3]]
                /\ fst q + snd q < 2 + 3))
      /\ (forall q, In q after ->
            batch_occurrences q [[1; 2; 3; 1; 2]; [2; 3]]
            < batch_occurrences (2, 3) [[1; 2; 3; 1; 2]; [2; 3]]
            \/ (batch_occurrences q [[1; 2; 3; 1; 2]; [2; 3]]
                = batch_occurrences (2, 3) [[1; 2; 3; 1; 2]; [2; 3]]
                /\ fst q + snd q <= 2 + 3)).
Proof.
  split; [reflexivity|].
  apply (pair_selection_rule [[1; 2; 3; 1; 2]; [2; 3]] (2, 3) eq_refl).
Defined.

Lemma get_vocab_size_len (self : t) : get_vocab_size self = len (vocab self).
Proof. reflexivity. Qed.

Lemma train_nothing (texts : list str) (max_vocab : Z) (self : t) :
  max_vocab <= 259 ->
  train texts max_vocab self = (mk base_tokenizer [], Ok NothingToTrain).
Proof.
  intros L. unfold train, bindM. rewrite bpe_init_vocab. unfold read.
  change (len (vocab (mk base_tokenizer []))) with 259.
  apply Z.leb_le in L. rewrite L. reflexivity.
Qed.

(** C4 as stated fails for targets below the base size: with a target of
    100 the vocabulary has 259 entries after [train]. *)
Lemma train_bound_counterexample :
  ~ (forall (texts : list str) (max_vocab : Z) (self : t),
        get_vocab_size (fst (train texts max_vocab self)) <= max_vocab)
  /\ get_vocab_size (fst (train [] 100 new)) = 259
  /\ snd (train [] 100 new) = Ok NothingToTrain.
Proof.
  assert (train [] 100 new = (mk base_tokenizer [], Ok NothingToTrain)) as E
      by (apply train_nothing; lia).
  split; [|split].
  - intros H. specialize (H [] 100 new). rewrite E in H.
    cbn [fst] in H. rewrite get_vocab_size_len in H.
    change (len (vocab (mk base_tokenizer []))) with 259 in H. lia.
  - rewrite E. reflexivity.
  - rewrite E. reflexivity.
Qed.

Lemma train_started (texts : list str) (max_vocab : Z) (self : t) :
  259 < max_vocab ->
  train texts max_vocab self =
  match encode_texts texts with
  | Ok seqs => train_loop (Z.to_nat (max_vocab - 259)) seqs
                          (mk base_tokenizer [])
  | Raise e => (mk base_tokenizer [], Raise e)
  | OutOfFuel => (mk base_tokenizer [], OutOfFuel)
  end.
Proof.
  intros L. unfold train, bindM. rewrite bpe_init_vocab. unfold read.
  change (len (vocab (mk base_tokenizer []))) with 259.
  apply Z.leb_gt in L. rewrite L. unfold lift.
  destruct (encode_texts texts) as [seqs| |]; reflexivity.
Qed.

Lemma train_step_break_inv (seqs : list (list Z)) (self self' : t) (p : Z * Z) :
  train_step seqs self = (self', Ok (Break p)) ->
  self' = self
  /\ select_pair (count_pairs seqs) = Ok p
  /\ get (count_pairs seqs) p = Some 1.
Proof.
  unfold train_step, bindM, lift, read, modify, ret.
  destruct (select_pair (count_pairs seqs)) as [q| |]; try discriminate.
  unfold getitem at 1.
  destruct (get (count_pairs seqs) q) as [freq|] eqn:G; try discriminate.
  destruct (Z.eqb_spec freq 1) as [-> | N].
  - intros E. injection E as <- <-. auto.
  - rewrite !vocab_set_merges. unfold getitem.
    destruct (get (vocab self) (fst q)); try discriminate.
    destruct (get (vocab self) (snd q)); discriminate.
Qed.

(** How the loop was left, in terms of the passes it completed. *)
Lemma train_loop_trace (n : nat) :
  forall (seqs : list (list Z)) (self self' : t) (e : train_exit),
    train_loop n seqs self = (self', Ok e) ->
    match e with
    | RangeExhausted =>
        exists seqs', after_iterations n seqs self = Some (seqs', self')
    | EarlyStop p =>
        exists k seqs',
          (k < n)%nat
          /\ after_iterations k seqs self = Some (seqs', self')
          /\ train_step seqs' self' = (self', Ok (Break p))
          /\ select_pair (count_pairs seqs') = Ok p
          /\ get (count_pairs seqs') p = Some 1
    | NothingToTrain => False
    end.
Proof.
  induction n as [|n IH]; intros seqs self self' e.
  - cbn [train_loop]. unfold ret. intros E. injection E as <- <-.
    exists seqs. reflexivity.
  - cbn [train_loop after_iterations]. unfold bindM.
    destruct (train_step seqs self) as [self1 [[seqs1 | p] | x |]] eqn:St;
      try discriminate.
    + intros E. apply IH in E. destruct e as [| |q]; auto.
      destruct E as (k & seqs' & L & A & B).
      exists (S k), seqs'. cbn [after_iterations]. rewrite St.
      split; [lia | auto].
    + unfold ret. intros E. injection E as <- <-.
      destruct (train_step_break_inv _ _ _ _ St) as (-> & S & G).
      exists 0%nat, seqs. cbn [after_iterations].
      split; [lia | auto].
Qed.

(** Every completed pass adds exactly one vocabulary entry. *)
Lemma after_iterations_size (k : nat) :
  forall (seqs seqs' : list (list Z)) (self self' : t),
    wf self -> Forall (known (vocab self)) seqs ->
    after_iterations k seqs self = Some (seqs', self') ->
    wf self' /\ Forall (known (vocab self')) seqs'
    /\ len (vocab self') = len (vocab self) + Z.of_nat k.
Proof.
  induction k as [|k IH]; intros seqs seqs' self self' W Kn.
  - cbn [after_iterations]. intros E. injection E as <- <-.
    split; [auto|]. split; [auto | lia].
  - cbn [after_iterations].
    pose proof (train_step_inv seqs self W Kn) as Inv.
    destruct (train_step seqs self) as [self1 [[seqs1 | p] | x |]];
      try discriminate.
    destruct Inv as (W1 & Kn1 & L1 & _). intros A.
    destruct (IH _ _ _ _ W1 Kn1 A) as (W2 & Kn2 & L2).
    split; [auto|]. split; [auto | lia].
Qed.

(** C4, amended.  For every corpus and every target size that is at least
    the base size 259, the vocabulary size after [train] is between 259 and
    the target; no iteration shrinks the vocabulary, and after [k] completed
    iterations of the run the size is exactly [259 + k]; when [train] has
    used up its range the size is the target; and when [train] returns with a
    smaller vocabulary, it stopped early in the iteration that followed some
    [k] completed ones, because the pair selected from the sequences as they
    then were had frequency exactly 1, and that iteration left the merge
    table and the vocabulary as they were. *)
Theorem train_postcondition (texts : list str) (max_vocab : Z) (self : t) :
  259 <= max_vocab ->
  259 <= get_vocab_size (fst (train texts max_vocab self)) <= max_vocab
  /\ (forall (seqs : list (list Z)) (s : t),
         get_vocab_size s <= get_vocab_size (fst (train_step seqs s)))
  /\ (snd (train texts max_vocab self) = Ok RangeExhausted ->
      get_vocab_size (fst (train texts max_vocab self)) = max_vocab)
  /\ (forall e : train_exit,
         snd (train texts max_vocab self) = Ok e ->
         get_vocab_size (fst (train texts max_vocab self)) < max_vocab ->
         exists (p : Z * Z) (seqs0 seqs : list (list Z)) (k : nat),
           e = EarlyStop p
           /\ encode_texts texts = Ok seqs0
           /\ (k < Z.to_nat (max_vocab - 259))%nat
           /\ after_iterations k seqs0 (fst (init_vocab self))
              = Some (seqs, fst (train texts max_vocab self))
           /\ select_pair (count_pairs seqs) = Ok p
           /\ batch_occurrences p seqs = 1
           /\ train_step seqs (fst (train texts max_vocab self))
              = (fst (train texts max_vocab self), Ok (Break p)))
  /\ (forall (seqs0 seqs : list (list Z)) (k : nat) (s : t),
         encode_texts texts = Ok seqs0 ->
         after_iterations k seqs0 (fst (init_vocab self)) = Some (seqs, s) ->
         get_vocab_size s = 259 + Z.of_nat k).
Proof.
  intros Hmax. rewrite bpe_init_vocab. cbn [fst].
  destruct (train_inv texts max_vocab self) as (W & Lo & Hi & Post).
  specialize (Hi Hmax).
  split; [rewrite get_vocab_size_len; split; [exact Lo | exact Hi]|].
  split; [intros seqs s; rewrite !get_vocab_size_len; apply train_step_size|].
  split; [|split].
  - intros E. rewrite E in Post. rewrite get_vocab_size_len. apply Post.
  - intros e E Lt. rewrite get_vocab_size_len in Lt.
    destruct (Z.eq_dec max_vocab 259) as [-> | N]; [lia|].
    assert (259 < max_vocab) as L by lia.
    pose proof (train_started texts max_vocab self L) as TS.
    destruct (encode_texts texts) as [seqs0| |] eqn:ET.
    + destruct (train texts max_vocab self) as [self' r] eqn:TR.
      cbn [fst snd] in *. subst r. symmetry in TS.
      pose proof (train_loop_trace _ _ _ _ _ TS) as Tr.
      destruct e as [| |p].
      * destruct Tr.
      * cbn [train_post] in Post. lia.
      * destruct Tr as (k & seqs & Lk & A & St & S & G).
        exists p, seqs0, seqs, k. repeat split; auto.
        rewrite get_count_pairs in G.
        destruct (0 <? batch_occurrences p seqs); congruence.
    + rewrite TS in E. cbn [snd] in E. discriminate E.
    + rewrite TS in E. cbn [snd] in E. discriminate E.
  - intros seqs0 seqs k s ET A.
    destruct (encode_texts_outcome texts) as [(seqs1 & E1 & F) | E1];
      rewrite E1 in ET; try discriminate ET.
    apply Ok_inj in ET. subst seqs1.
    assert (Forall (known (vocab (mk base_tokenizer []))) seqs0) as Kn.
    { revert F. apply Forall_impl. intros ids. apply known_bytes, wf_base. }
    destruct (after_iterations_size k _ _ _ _ wf_base Kn A) as (_ & _ & Sz).
    rewrite get_vocab_size_len, Sz. reflexivity.
Qed.

Lemma train_postcondition_witness :
  (259 <= 300
   /\ snd (train [[97; 98; 97; 98]] 300 new) = Ok (EarlyStop (259, 259))
   /\ get_vocab_size (fst (train [[97; 98; 97; 98]] 300 new)) < 300)
  /\ exists (p : Z * Z) (seqs0 seqs : list (list Z)) (k : nat),
      EarlyStop (259, 259) = EarlyStop p
      /\ encode_texts [[97; 98; 97; 98]] = Ok seqs0
      /\ (k < Z.to_nat (300 - 259))%nat
      /\ after_iterations k seqs0 (fst (init_vocab new))
         = Some (seqs, fst (train [[97; 98; 97; 98]] 300 new))
      /\ select_pair (count_pairs seqs) = Ok p
      /\ batch_occurrences p seqs = 1
      /\ train_step seqs (fst (train [[97; 98; 97; 98]] 300 new))
         = (fst (train [[97; 98; 97; 98]] 300 new), Ok (Break p)).
Proof.
  assert (259 <= 300) as H by lia.
  assert (snd (train [[97; 98; 97; 98]] 300 new) = Ok (EarlyStop (259, 259)))
    as E by (vm_compute; reflexivity).
  assert (get_vocab_size (fst (train [[97; 98; 97; 98]] 300 new)) < 300)
    as Lt by (vm_compute; reflexivity).
  split; [split; [exact H | split; [exact E | exact Lt]]|].
  exact (proj1 (proj2 (proj2 (proj2
           (train_postcondition [[97; 98; 97; 98]] 300 new H))))
           (EarlyStop (259, 259)) E Lt).
Defined.

(** C5.  Every id that [BpeTokenizer.encode] returns is a key of the
    tokenizer's vocabulary, so decoding the output never raises. *)
Theorem encode_ids_in_vocab (self : t) (text : str) (ids : list Z) :
  reachable self ->
  encode self text = Ok ids ->
  Forall (fun id => contains (vocab self) id = true) ids
  /\ exists s, decode self ids = Ok s.
Proof.
  intros R E.
  destruct (bpe_encode_join self text ids (reachable_wf self R) E)
    as (data & U & J).
  split.
  - apply join_vocab_known. eauto.
  - unfold decode, ByteTokenizer.decode. fold (vocab self). rewrite J.
    cbn [bind]. eauto.
Qed.

Lemma encode_ids_in_vocab_witness :
  reachable (fst (train [[97; 98; 97; 98]] 300 new))
  /\ encode (fst (train [[97; 98; 97; 98]] 300 new)) [97; 98; 97; 98] = Ok [259; 259]
  /\ Forall (fun id =>
               contains (vocab (fst (train [[97; 98; 97; 98]] 300 new))) id
               = true) [259; 259].
Proof.
  assert (reachable (fst (train [[97; 98; 97; 98]] 300 new))) as R
      by apply reach_train, reach_new.
  assert (encode (fst (train [[97; 98; 97; 98]] 300 new)) [97; 98; 97; 98]
          = Ok [259; 259]) as E by (vm_compute; reflexivity).
  split; [exact R|]. split; [exact E|].
  exact (proj1 (encode_ids_in_vocab (fst (train [[97; 98; 97; 98]] 300 new))
                                    [97; 98; 97; 98] [259; 259] R E)).
Defined.

(** C6.  [count_pairs] maps every ordered pair to the exact number of its
    adjacent occurrences, summed over the sequences one by one (so no pair
    spans two sequences); pairs that never occur have no entry, no key occurs
    twice, and the example of the specification holds. *)
Theorem count_pairs_exact :
  (forall (data : list (list Z)) (p : Z * Z),
      get (count_pairs data) p =
      if 0 <? batch_occurrences p data
      then Some (batch_occurrences p data) else None)
  /\ (forall data : list (list Z), NoDup (keys (count_pairs data)))
  /\ count_pairs [[1; 2; 3]; [2; 3; 4]; [1; 2; 2]]
     = [((1, 2), 2); ((2, 3), 2); ((3, 4), 1); ((2, 2), 1)]
  /\ count_pairs [[1]; [2]] = []
  /\ count_pairs [[1; 2]; [3; 4]] = [((1, 2), 1); ((3, 4), 1)].
Proof.
  repeat split; try (vm_compute; reflexivity).
  - apply get_count_pairs.
  - apply NoDup_keys_count_pairs.
Qed.

(** C7.  [decode] raises exactly when some id of its input has no
    vocabulary entry, and then it raises [KeyError]; when all ids have an
    entry it returns the string obtained from the concatenated expansions,
    with ill-formed UTF-8 replaced by U+FFFD instead of an error. *)
Theorem decode_raises_iff (self : ByteTokenizer.t) (ids : list Z) :
  ((exists e, ByteTokenizer.decode self ids = Raise e)
   <-> exists id, In id ids /\ contains (ByteTokenizer.vocab self) id = false)
  /\ (forall e, ByteTokenizer.decode self ids = Raise e -> e = KeyError)
  /\ ((forall id, In id ids -> contains (ByteTokenizer.vocab self) id = true)
      <-> exists data,
          ByteTokenizer.join_vocab (ByteTokenizer.vocab self) ids = Ok data
          /\ ByteTokenizer.decode self ids = Ok (Utf8.decode data))
  /\ ByteTokenizer.decode self ids <> OutOfFuel
  /\ ByteTokenizer.decode base_tokenizer [255] = Ok [Utf8.REPLACEMENT]
  /\ ByteTokenizer.decode base_tokenizer [195; 40] = Ok [Utf8.REPLACEMENT; 40]
  /\ ByteTokenizer.decode base_tokenizer [226; 130] = Ok [Utf8.REPLACEMENT].
Proof.
  unfold ByteTokenizer.decode.
  destruct (join_vocab_outcome (ByteTokenizer.vocab self) ids)
    as [[data J] | [J (x & I & C)]].
  - assert (known (ByteTokenizer.vocab self) ids) as Kn
        by (apply join_vocab_known; eauto).
    unfold known in Kn. rewrite Forall_forall in Kn.
    rewrite J. cbn [bind].
    split; [|split; [|split; [|split]]].
    + split; [intros [e E]; discriminate|].
      intros (id & I & C). apply Kn in I. congruence.
    + discriminate.
    + split; eauto.
    + discriminate.
    + repeat split; vm_compute; reflexivity.
  - rewrite J. cbn [bind].
    split; [|split; [|split; [|split]]].
    + split; eauto.
    + intros e E. congruence.
    + split.
      * intros A. apply A in I. congruence.
      * intros (data & D & _). discriminate.
    + discriminate.
    + repeat split; vm_compute; reflexivity.
Qed.

Lemma decode_raises_iff_witness :
  (exists id, In id [97; 300]
              /\ contains (ByteTokenizer.vocab base_tokenizer) id = false)
  /\ exists e, ByteTokenizer.decode base_tokenizer [97; 300] = Raise e.
Proof.
  assert (exists id, In id [97; 300]
                     /\ contains (ByteTokenizer.vocab base_tokenizer) id = false)
    as H by (exists 300; split; [simpl; auto | vm_compute; reflexivity]).
  split; [exact H|].
  exact (proj2 (proj1 (decode_raises_iff base_tokenizer [97; 300])) H).
Defined.

(** C8.  [init_vocab] always produces the same 259 entries: ids 0..255
    mapped to their single bytes, then pad, start and end at 256, 257 and 258
    in this order, with these three ids recorded; running it again changes
    nothing. *)
Theorem init_vocab_base (self : ByteTokenizer.t) :
  ByteTokenizer.vocab (fst (ByteTokenizer.init_vocab self))
  = map (fun b => (b, [b])) (range 256)
    ++ [(256, ByteTokenizer.pad_token); (257, ByteTokenizer.bos_token);
        (258, ByteTokenizer.eos_token)]
  /\ ByteTokenizer.get_vocab_size (fst (ByteTokenizer.init_vocab self)) = 259
  /\ ByteTokenizer.pad_token_id (fst (ByteTokenizer.init_vocab self)) = Some 256
  /\ ByteTokenizer.bos_token_id (fst (ByteTokenizer.init_vocab self)) = Some 257
  /\ ByteTokenizer.eos_token_id (fst (ByteTokenizer.init_vocab self)) = Some 258
  /\ snd (ByteTokenizer.init_vocab self) = Ok tt
  /\ ByteTokenizer.init_vocab (fst (ByteTokenizer.init_vocab self))
     = ByteTokenizer.init_vocab self
  /\ (forall other : ByteTokenizer.t,
         ByteTokenizer.init_vocab other = ByteTokenizer.init_vocab self).
Proof.
  rewrite !byte_init_vocab. cbn [fst snd].
  split; [reflexivity|]. split; [reflexivity|]. split; [reflexivity|].
  split; [reflexivity|]. split; [reflexivity|]. split; [reflexivity|].
  split; [reflexivity|]. intros other. apply byte_init_vocab.
Qed.

(** C9.  For every corpus, [train] with a target size of at most 259 returns
    right after the reset: no merge is made, the merge table is empty and the
    vocabulary is the base vocabulary of 259 entries. *)
Theorem train_degenerate (texts : list str) (max_vocab : Z) (self : t) :
  max_vocab <= 259 ->
  snd (train texts max_vocab self) = Ok NothingToTrain
  /\ merges (fst (train texts max_vocab self)) = []
  /\ vocab (fst (train texts max_vocab self)) = base_vocab
  /\ get_vocab_size (fst (train texts max_vocab self)) = 259
  /\ fst (train texts max_vocab self) = fst (init_vocab self).
Proof.
  intros L. rewrite (train_nothing texts max_vocab self L), bpe_init_vocab.
  cbn [fst snd]. repeat split; reflexivity.
Qed.

Lemma train_degenerate_witness :
  259 <= 259
  /\ snd (train [[97; 97; 97; 97]] 259 new) = Ok NothingToTrain
  /\ merges (fst (train [[97; 97; 97; 97]] 259 new)) = [].
Proof.
  split; [lia|].
  destruct (train_degenerate [[97; 97; 97; 97]] 259 new) as (E & M & _);
    [lia|].
  split; [exact E | exact M].
Defined.

(** C10.  [BpeTokenizer.encode] terminates on every string with every merge
    table: it returns a list or raises [UnicodeEncodeError]; the loop needs
    at most as many iterations as the sequence is long, because an iteration
    that does not leave the loop substitutes a pair that occurs in the
    sequence and so shortens it. *)
Theorem encode_terminates :
  (forall (self : t) (text : str),
      (exists ids, encode self text = Ok ids)
      \/ encode self text = Raise UnicodeEncodeError)
  /\ (forall (m : dict (Z * Z) Z) (ids : list Z) (fuel : nat),
         (length ids < fuel)%nat ->
         exists ids', encode_loop fuel m ids = Ok ids'
                      /\ (length ids' <= length ids)%nat)
  /\ (forall ids : list Z,
         (1 < length ids)%nat ->
         exists p,
           select_pair (count_pairs [ids]) = Ok p
           /\ 0 < occurrences p ids
           /\ forall idx, (length (merge ids p idx) < length ids)%nat).
Proof.
  split; [|split].
  - intros self text. unfold encode.
    destruct (encode_outcome text) as [[data ->] | ->]; cbn [bind]; auto.
    destruct (encode_loop_terminates (merges self) (S (length data)) data)
      as (ids & E & _); [lia|]. eauto.
  - intros m ids fuel L. now apply encode_loop_terminates.
  - intros ids L. destruct (select_pair_single ids L) as (p & S & O).
    exists p. repeat split; auto.
    intros idx. rewrite merge_substitute. now apply substitute_length_lt.
Qed.

Lemma encode_terminates_witness :
  (length [97; 98; 97; 98] < 5)%nat
  /\ exists ids',
      encode_loop 5 [((97, 98), 259)] [97; 98; 97; 98] = Ok ids'
      /\ (length ids' <= length [97; 98; 97; 98])%nat.
Proof.
  assert (length [97; 98; 97; 98] < 5)%nat as L by (simpl; lia).
  split; [exact L|].
  exact (proj1 (proj2 encode_terminates) [((97, 98), 259)] [97; 98; 97; 98]
               5%nat L).
Defined.

(** * Further properties of the code *)

(** ** [merge] *)

Lemma occurrences_cons_other (p : Z * Z) (x : Z) (l : list Z) :
  x <> fst p -> occurrences p (x :: l) = occurrences p l.
Proof.
  intros N. destruct l as [|y l]; [reflexivity|].
  rewrite occurrences_cons2.
  destruct (eqb (x, y) p) eqn:E; [|lia].
  apply eqb_eq in E. subst p. simpl in N. congruence.
Qed.

Lemma substitute_head (b : Z) (rest : list Z) (p : Z * Z) (idx : Z) :
  exists tl, substitute (b :: rest) p idx = idx :: tl
             \/ substitute (b :: rest) p idx = b :: tl.
Proof.
  destruct rest as [|c rest]; [exists []; right; reflexivity|].
  rewrite substitute_cons2. destruct (eqb (b, c) p); eauto.
Qed.

Lemma substitute_removes (p : Z * Z) (idx : Z) (l : list Z) :
  idx <> fst p -> idx <> snd p -> occurrences p (substitute l p idx) = 0.
Proof.
  intros Na Nb.
  induction l as [| a | a b rest IH1 IH2] using scan_ind; try reflexivity.
  rewrite substitute_cons2. destruct (eqb (a, b) p) eqn:E.
  - rewrite occurrences_cons_other; auto.
  - destruct (substitute_head b rest p idx) as [tl [H | H]];
      rewrite H in *; rewrite occurrences_cons2, IH2.
    + destruct (eqb (a, idx) p) eqn:E'; [|reflexivity].
      apply eqb_eq in E'. subst p. simpl in Nb. congruence.
    + rewrite E. reflexivity.
Qed.

Lemma substitute_absent (p : Z * Z) (idx : Z) (l : list Z) :
  occurrences p l = 0 -> substitute l p idx = l.
Proof.
  induction l as [| a | a b rest IH1 IH2] using scan_ind; try reflexivity.
  rewrite occurrences_cons2, substitute_cons2.
  pose proof (occurrences_nonneg p (b :: rest)).
  destruct (eqb (a, b) p); intros O; [lia|].
  rewrite IH2 by lia. reflexivity.
Qed.

Lemma unmerge_substitute (p : Z * Z) (idx : Z) (l : list Z) :
  ~ In idx l -> unmerge (substitute l p idx) p idx = l.
Proof.
  unfold unmerge.
  induction l as [| a | a b rest IH1 IH2] using scan_ind; intros NI.
  - reflexivity.
  - simpl. destruct (Z.eqb_spec a idx); [|reflexivity].
    subst. simpl in NI. tauto.
  - rewrite substitute_cons2. destruct (eqb (a, b) p) eqn:E.
    + apply eqb_eq in E. subst p. cbn [flat_map].
      rewrite Z.eqb_refl, IH1; [reflexivity|].
      simpl in NI. tauto.
    + cbn [flat_map]. destruct (Z.eqb_spec a idx) as [-> | N].
      * simpl in NI. tauto.
      * cbn [app]. rewrite IH2; auto. simpl in *. tauto.
Qed.

(** X1.  When the replacement id is neither element of the pair, [merge]
    replaces every occurrence: the pair is no longer adjacent anywhere in the
    result, and merging a second time changes nothing. *)
Theorem merge_removes_pair (numbers : list Z) (pair : Z * Z) (idx : Z) :
  idx <> fst pair -> idx <> snd pair ->
  occurrences pair (merge numbers pair idx) = 0
  /\ merge (merge numbers pair idx) pair idx = merge numbers pair idx.
Proof.
  intros Na Nb.
  assert (occurrences pair (merge numbers pair idx) = 0) as O.
  { rewrite merge_substitute. now apply substitute_removes. }
  split; [exact O|].
  rewrite (merge_substitute (merge numbers pair idx)).
  now apply substitute_absent.
Qed.

Lemma merge_removes_pair_witness :
  (9 <> fst (0, 0) /\ 9 <> snd (0, 0))
  /\ occurrences (0, 0) (merge [0; 0; 0; 1; 0; 0] (0, 0) 9) = 0.
Proof.
  assert (9 <> fst (0, 0)) as Na by (simpl; lia).
  assert (9 <> snd (0, 0)) as Nb by (simpl; lia).
  split; [split; assumption|].
  exact (proj1 (merge_removes_pair [0; 0; 0; 1; 0; 0] (0, 0) 9 Na Nb)).
Defined.

(** X2.  [merge] returns its input unchanged exactly when the pair does not
    occur in it; otherwise the result is strictly shorter. *)
Theorem merge_identity_iff (numbers : list Z) (pair : Z * Z) (idx : Z) :
  (merge numbers pair idx = numbers <-> occurrences pair numbers = 0)
  /\ (length (merge numbers pair idx) <= length numbers)%nat.
Proof.
  rewrite merge_substitute. split.
  - split.
    + intros E. pose proof (occurrences_nonneg pair numbers).
      destruct (Z.eq_dec (occurrences pair numbers) 0) as [Z0 | NZ]; auto.
      assert (0 < occurrences pair numbers) as Pos by lia.
      apply (substitute_length_lt pair idx) in Pos. rewrite E in Pos. lia.
    + apply substitute_absent.
  - apply substitute_length_le.
Qed.

Lemma merge_identity_iff_witness :
  occurrences (2, 3) [1; 3; 2; 4] = 0
  /\ merge [1; 3; 2; 4] (2, 3) 9 = [1; 3; 2; 4].
Proof.
  assert (occurrences (2, 3) [1; 3; 2; 4] = 0) as O by reflexivity.
  split; [exact O|].
  exact (proj2 (proj1 (merge_identity_iff [1; 3; 2; 4] (2, 3) 9)) O).
Defined.

(** X3.  When the replacement id does not occur in the input (what the
    docstring of [merge] asks for), [merge] loses no information: expanding
    every replacement id back into the pair returns the input. *)
Theorem merge_invertible (numbers : list Z) (pair : Z * Z) (idx : Z) :
  ~ In idx numbers ->
  unmerge (merge numbers pair idx) pair idx = numbers.
Proof.
  intros NI. rewrite merge_substitute. now apply unmerge_substitute.
Qed.

Lemma merge_invertible_witness :
  ~ In 9 [1; 2; 3; 2; 3; 4]
  /\ unmerge (merge [1; 2; 3; 2; 3; 4] (2, 3) 9) (2, 3) 9 = [1; 2; 3; 2; 3; 4].
Proof.
  assert (~ In 9 [1; 2; 3; 2; 3; 4]) as NI by (simpl; lia).
  split; [exact NI|].
  exact (merge_invertible [1; 2; 3; 2; 3; 4] (2, 3) 9 NI).
Defined.

(** ** [count_pairs] *)

Lemma total_set_bump (d : dict (Z * Z) Z) (p : Z * Z) :
  total (bump d p) = total d + 1.
Proof.
  unfold bump, total, get_default.
  induction d as [|[k v] d IH]; [reflexivity|].
  cbn [set get]. destruct (eqb k p) eqn:E; cbn [map snd fold_right].
  - lia.
  - destruct (get d p); cbn [map snd fold_right] in *; lia.
Qed.

Lemma total_fold_bump (ps : list (Z * Z)) :
  forall d, total (fold_left bump ps d) = total d + Z.of_nat (length ps).
Proof.
  induction ps as [|q ps IH]; intros d; cbn [fold_left length].
  - lia.
  - rewrite IH, total_set_bump. lia.
Qed.

Lemma length_adjacent (ids : list Z) :
  length (adjacent ids) = (length ids - 1)%nat.
Proof.
  induction ids as [|a [|b rest] IH]; try reflexivity.
  change (adjacent (a :: b :: rest)) with ((a, b) :: adjacent (b :: rest)).
  cbn [length] in *. lia.
Qed.

(** X4.  The counts of [count_pairs] add up to the number of adjacent
    positions of the batch: [len(ids) - 1] for every sequence that is not
    empty, nothing for an empty one. *)
Theorem count_pairs_total (data : list (list Z)) :
  total (count_pairs data)
  = fold_right Z.add 0
      (map (fun ids => Z.of_nat (length ids - 1)) data).
Proof.
  rewrite count_pairs_fold, total_fold_bump.
  change (total []) with 0.
  induction data as [|ids data IH]; [reflexivity|].
  cbn [map concat fold_right]. rewrite length_app, length_adjacent. lia.
Qed.

Lemma existsb_eqb_In (x : Z * Z) (l : list (Z * Z)) :
  existsb (eqb x) l = true <-> In x l.
Proof.
  rewrite existsb_exists. split.
  - intros (y & I & E). apply eqb_eq in E. now subst.
  - intros I. exists x. split; auto. apply eqb_refl.
Qed.

Lemma keys_bump (d : dict (Z * Z) Z) (p : Z * Z) :
  keys (bump d p) = if existsb (eqb p) (keys d) then keys d else keys d ++ [p].
Proof.
  unfold bump. rewrite keys_set.
  destruct (contains d p) eqn:C.
  - apply contains_In in C. apply existsb_eqb_In in C. now rewrite C.
  - destruct (existsb (eqb p) (keys d)) eqn:E; auto.
    apply existsb_eqb_In, contains_In in E. congruence.
Qed.

Lemma keys_fold_bump (ps : list (Z * Z)) :
  forall d,
    keys (fold_left bump ps d)
    = fold_left (fun acc x => if existsb (eqb x) acc then acc else acc ++ [x])
                ps (keys d).
Proof.
  induction ps as [|q ps IH]; intros d; cbn [fold_left]; auto.
  now rewrite IH, keys_bump.
Qed.

(** X5.  The keys of [count_pairs] are the distinct adjacent pairs of the
    batch in the order in which the scan first meets them (sequence by
    sequence, left to right); this is the order in which [max] breaks what
    ties are left. *)
Theorem count_pairs_key_order (data : list (list Z)) :
  keys (count_pairs data) = first_seen (concat (map adjacent data))
  /\ (forall ids : list Z,
         adjacent ids
         = map (fun i => (item ids i, item ids (S i))) (pair_positions ids)).
Proof.
  split.
  - rewrite count_pairs_fold, keys_fold_bump. reflexivity.
  - intros ids. symmetry. apply positions_adjacent.
Qed.

Lemma count_pairs_nil_iff (data : list (list Z)) :
  count_pairs data = [] <-> Forall (fun ids => (length ids <= 1)%nat) data.
Proof.
  split.
  - intros E. apply Forall_forall. intros ids I.
    destruct ids as [|a [|b rest]]; simpl; try lia.
    exfalso.
    assert (In (a, b) (keys (count_pairs data))) as K.
    { apply In_keys_count_pairs, batch_occurrences_pos.
      exists (a :: b :: rest). split; auto.
      rewrite occurrences_cons2, eqb_refl.
      pose proof (occurrences_nonneg (a, b) (b :: rest)). lia. }
    rewrite E in K. destruct K.
  - intros F. rewrite count_pairs_fold.
    replace (concat (map adjacent data)) with (@nil (Z * Z)); [reflexivity|].
    induction F as [|ids data L F IH]; [reflexivity|].
    cbn [map concat]. rewrite <- IH.
    destruct ids as [|a [|b rest]]; simpl in L; try reflexivity. lia.
Qed.


(** X6.  [count_pairs] returns the empty dictionary exactly when no sequence
    of the batch has two elements. *)
Theorem count_pairs_empty_iff (data : list (list Z)) :
  count_pairs data = [] <-> Forall (fun ids => (length ids <= 1)%nat) data.
Proof. apply count_pairs_nil_iff. Qed.

Lemma batch_occurrences_app (p : Z * Z) (d1 d2 : list (list Z)) :
  batch_occurrences p (d1 ++ d2)
  = batch_occurrences p d1 + batch_occurrences p d2.
Proof. induction d1 as [|ids d1 IH]; simpl; lia. Qed.

(** X7.  Counting is additive over batches: the count of a pair in two
    batches put together is the sum of its counts in each, so the counts (not
    the key order) do not depend on the order of the sequences. *)
Theorem count_pairs_additive (d1 d2 : list (list Z)) (p : Z * Z) :
  get_default (count_pairs (d1 ++ d2)) p 0
  = get_default (count_pairs d1) p 0 + get_default (count_pairs d2) p 0
  /\ get (count_pairs (d1 ++ d2)) p = get (count_pairs (d2 ++ d1)) p.
Proof.
  rewrite !get_default_count_pairs, !get_count_pairs, !batch_occurrences_app.
  split; [reflexivity|].
  replace (batch_occurrences p d2 + batch_occurrences p d1)
    with (batch_occurrences p d1 + batch_occurrences p d2) by lia.
  reflexivity.
Qed.

(** ** Training *)

Lemma train_step_continue (seqs seqs' : list (list Z)) (self self' : t) :
  train_step seqs self = (self', Ok (Continue seqs')) ->
  exists p l r,
    select_pair (count_pairs seqs) = Ok p
    /\ get (vocab self) (fst p) = Some l
    /\ get (vocab self) (snd p) = Some r
    /\ self' = set_vocab (set (vocab self) (len (vocab self)) (l ++ r))
                         (set_merges (set (merges self) p (len (vocab self)))
                                     self)
    /\ seqs' = map (fun ids => merge ids p (len (vocab self))) seqs.
Proof.
  unfold train_step, bindM, lift, read, modify, ret.
  destruct (select_pair (count_pairs seqs)) as [p| |]; try discriminate.
  destruct (getitem (count_pairs seqs) p) as [freq| |]; try discriminate.
  destruct (freq =? 1); try discriminate.
  rewrite !vocab_set_merges. unfold getitem.
  destruct (get (vocab self) (fst p)) as [l|] eqn:Gl; try discriminate.
  destruct (get (vocab self) (snd p)) as [r|] eqn:Gr; try discriminate.
  intros E. injection E as <- <-. exists p, l, r. auto.
Qed.

Lemma set_fresh {K V : Type} `{EqbLaw K} (d : dict K V) (k : K) (v : V) :
  contains d k = false -> set d k v = d ++ [(k, v)].
Proof.
  unfold contains. induction d as [|[k' v'] d IH]; simpl; auto.
  destruct (eqb k' k); [discriminate|]. intros C. now rewrite IH.
Qed.

Lemma occurrences_cons_ge (q : Z * Z) (x : Z) (l : list Z) :
  occurrences q l <= occurrences q (x :: l).
Proof.
  destruct l as [|y l]; [simpl; lia|].
  rewrite (occurrences_cons2 q x y l). destruct (eqb (x, y) q); lia.
Qed.

(** A substitution creates no adjacency between ids other than the new
    one. *)
Lemma substitute_no_new (q p : Z * Z) (idx : Z) (l : list Z) :
  fst q <> idx -> snd q <> idx ->
  occurrences q (substitute l p idx) <= occurrences q l.
Proof.
  intros Na Nb.
  induction l as [| a | a b rest IH1 IH2] using scan_ind; try (simpl; lia).
  rewrite substitute_cons2. destruct (eqb (a, b) p) eqn:E.
  - rewrite occurrences_cons_other by congruence.
    pose proof (occurrences_cons_ge q b rest).
    pose proof (occurrences_cons_ge q a (b :: rest)). lia.
  - rewrite (occurrences_cons2 q a b rest).
    destruct (substitute_head b rest p idx) as [tl [H | H]];
      rewrite H in *; rewrite occurrences_cons2.
    + destruct (eqb (a, idx) q) eqn:E'.
      * apply eqb_eq in E'. subst q. simpl in Nb. congruence.
      * destruct (eqb (a, b) q); lia.
    + destruct (eqb (a, b) q); lia.
Qed.

Lemma batch_occurrences_nonneg (p : Z * Z) (data : list (list Z)) :
  0 <= batch_occurrences p data.
Proof. rewrite <- tally_batch. apply tally_nonneg. Qed.

Lemma batch_merge_zero (q p : Z * Z) (idx : Z) (seqs : list (list Z)) :
  fst q <> idx -> snd q <> idx ->
  batch_occurrences q seqs = 0 ->
  batch_occurrences q (map (fun ids => merge ids p idx) seqs) = 0.
Proof.
  intros Na Nb. induction seqs as [|ids seqs IH]; cbn [map batch_occurrences];
    auto.
  pose proof (occurrences_nonneg q ids).
  pose proof (batch_occurrences_nonneg q seqs).
  intros Z0. rewrite IH by lia. rewrite merge_substitute.
  pose proof (substitute_no_new q p idx ids Na Nb).
  pose proof (occurrences_nonneg q (substitute ids p idx)). lia.
Qed.

Lemma batch_merge_removed (p : Z * Z) (idx : Z) (seqs : list (list Z)) :
  idx <> fst p -> idx <> snd p ->
  batch_occurrences p (map (fun ids => merge ids p idx) seqs) = 0.
Proof.
  intros Na Nb. induction seqs as [|ids seqs IH]; cbn [map batch_occurrences];
    auto.
  rewrite IH, merge_substitute, substitute_removes; auto.
Qed.

Lemma get_In_entry {K V : Type} `{EqbLaw K} (d : dict K V) (k : K) (v : V) :
  get d k = Some v -> In (k, v) d.
Proof.
  induction d as [|[k' v'] d IH]; simpl; [discriminate|].
  destruct (eqb k' k) eqn:E.
  - apply eqb_eq in E. intros G. injection G as ->. subst. auto.
  - auto.
Qed.

Lemma base_vocab_entries :
  Forall (fun e => snd e <> [] /\ Forall is_byte (snd e)) base_vocab.
Proof.
  assert (forallb (fun e : Z * bytes =>
                     negb (Nat.eqb (length (snd e)) 0)
                     && forallb (fun b => (0 <=? b) && (b <? 256)) (snd e))
                  base_vocab = true) as F by (vm_compute; reflexivity).
  rewrite forallb_forall in F. apply Forall_forall. intros e I.
  apply F in I. apply andb_true_iff in I. destruct I as [N B].
  destruct e as [k v]. cbn [snd] in *. split.
  - intros E. subst v. discriminate.
  - apply Forall_forall. intros b Ib. rewrite forallb_forall in B.
    apply B in Ib. unfold is_byte. lia.
Qed.

Lemma trained_base (seqs : list (list Z)) :
  Forall (Forall is_byte) seqs -> trained (mk base_tokenizer []) seqs.
Proof.
  intros F. split.
  - exact wf_base.
  - revert F. apply Forall_impl. intros ids. apply known_bytes, wf_base.
  - intros p [].
  - constructor.
  - reflexivity.
  - intros p idx G. discriminate.
  - exists []. change (vocab (mk base_tokenizer [])) with base_vocab.
    rewrite app_nil_r. split; [reflexivity|]. split; [reflexivity|].
    constructor.
  - exact base_vocab_entries.
  - repeat split; reflexivity.
Qed.

Lemma trained_step (seqs seqs' : list (list Z)) (self self' : t) :
  trained self seqs ->
  train_step seqs self = (self', Ok (Continue seqs')) ->
  trained self' seqs'.
Proof.
  intros T St.
  pose proof (train_step_inv seqs self (tr_wf _ _ T) (tr_known _ _ T)) as Inv.
  rewrite St in Inv. destruct Inv as (W' & Kn' & Len' & _).
  destruct (train_step_continue _ _ _ _ St) as (p & l & r & S & Gl & Gr & -> & ->).
  set (n := len (vocab self)) in *.
  assert (0 < batch_occurrences p seqs) as Pos.
  { apply In_keys_count_pairs. now apply select_pair_In. }
  assert (contains (merges self) p = false) as Fp.
  { destruct (contains (merges self) p) eqn:C; auto.
    apply contains_In in C. apply (tr_gone _ _ T) in C. lia. }
  assert (contains (vocab self) n = false) as Fn.
  { destruct (contains (vocab self) n) eqn:C; auto.
    apply contains_range in C; [unfold n in C; lia | apply T]. }
  assert (forall x e, get (vocab self) x = Some e -> 0 <= x < n) as Old.
  { intros x e G. apply (contains_range (vocab self) x); [apply T|].
    unfold contains. now rewrite G. }
  pose proof (Old _ _ Gl) as Ra. pose proof (Old _ _ Gr) as Rb.
  assert (n = 259 + Z.of_nat (length (merges self))) as Hn.
  { destruct (tr_vocab _ _ T) as (ext & E & L & _).
    unfold n, len. rewrite E, length_app, <- L.
    change (length base_vocab) with 259%nat. lia. }
  split; auto.
  - intros q I. rewrite merges_set_vocab, merges_set_merges in I.
    rewrite (set_fresh _ _ _ Fp) in I. unfold keys in I.
    rewrite map_app, in_app_iff in I. destruct I as [I | [<- | []]].
    + fold (keys (merges self)) in I.
      pose proof (tr_gone _ _ T q I) as Z0.
      destruct (In_keys_get _ _ I) as [idx G].
      destruct (tr_parts _ _ T q idx G) as [Pa Pb].
      destruct (wf_merges _ (tr_wf _ _ T) q idx G) as (l' & r' & G1 & G2 & G3).
      apply Old in G3. apply batch_merge_zero; auto; lia.
    + cbn [fst]. apply batch_merge_removed; lia.
  - rewrite merges_set_vocab, merges_set_merges.
    apply NoDup_keys_set, T.
  - rewrite merges_set_vocab, merges_set_merges, (set_fresh _ _ _ Fp).
    rewrite map_app, length_app. cbn [map snd length].
    rewrite Nat.add_1_r, seq_S, map_app. cbn [map Nat.add].
    rewrite <- (tr_ids _ _ T). f_equal. f_equal. lia.
  - intros q idx G. rewrite merges_set_vocab, merges_set_merges in G.
    destruct (eqb p q) eqn:E.
    + apply eqb_eq in E. subst q. rewrite get_set_same in G.
      injection G as <-. lia.
    + apply eqb_neq in E. rewrite get_set_other in G by auto.
      now apply (tr_parts _ _ T).
  - destruct (tr_vocab _ _ T) as (ext & E & L & F).
    exists (ext ++ [(n, l ++ r)]).
    rewrite vocab_set_vocab, merges_set_vocab, merges_set_merges.
    rewrite (set_fresh _ _ _ Fn), (set_fresh _ _ _ Fp), E, !length_app, L.
    split; [now rewrite app_assoc|]. split; [reflexivity|].
    apply Forall_app. split; auto. constructor; [|constructor].
    cbn [snd]. rewrite length_app.
    pose proof (tr_bytes _ _ T) as B. rewrite Forall_forall in B.
    destruct (B _ (get_In_entry _ _ _ Gl)) as [Nl _].
    destruct (B _ (get_In_entry _ _ _ Gr)) as [Nr _].
    cbn [snd] in *. destruct l; [congruence|]. destruct r; [congruence|].
    simpl. lia.
  - rewrite vocab_set_vocab, (set_fresh _ _ _ Fn).
    apply Forall_app. split; [apply T|]. constructor; [|constructor].
    pose proof (tr_bytes _ _ T) as B. rewrite Forall_forall in B.
    destruct (B _ (get_In_entry _ _ _ Gl)) as [Nl Bl].
    destruct (B _ (get_In_entry _ _ _ Gr)) as [Nr Br].
    cbn [snd] in *. split.
    + destruct l; [congruence | discriminate].
    + apply Forall_app. auto.
  - exact (tr_control _ _ T).
Qed.

Lemma trained_loop (n : nat) :
  forall (seqs : list (list Z)) (self : t),
    trained self seqs ->
    exists seqs', trained (fst (train_loop n seqs self)) seqs'.
Proof.
  induction n as [|n IH]; intros seqs self T.
  - exists seqs. exact T.
  - cbn [train_loop]. unfold bindM.
    pose proof (train_step_inv seqs self (tr_wf _ _ T) (tr_known _ _ T)) as Inv.
    destruct (train_step seqs self) as [self1 [[seqs1 | p] | e |]] eqn:St.
    + apply IH. eapply trained_step; eauto.
    + destruct Inv as (-> & _). exists seqs. exact T.
    + destruct Inv as (-> & _). exists seqs. exact T.
    + destruct Inv.
Qed.

Lemma trained_train (texts : list str) (max_vocab : Z) (self : t) :
  exists seqs, trained (fst (train texts max_vocab self)) seqs.
Proof.
  unfold train, bindM. rewrite bpe_init_vocab. unfold read.
  destruct (max_vocab <=? len (vocab (mk base_tokenizer []))).
  - exists []. apply trained_base. constructor.
  - unfold lift.
    destruct (encode_texts_outcome texts) as [(seqs & -> & F) | ->].
    + apply trained_loop. now apply trained_base.
    + exists []. apply trained_base. constructor.
Qed.

Lemma reachable_trained (self : t) :
  reachable self -> exists seqs, trained self seqs.
Proof.
  induction 1 as [|self texts max_vocab _ _].
  - rewrite bpe_new. exists []. apply trained_base. constructor.
  - apply trained_train.
Qed.

Lemma In_entry_get {K V : Type} `{EqbLaw K} (d : dict K V) (k : K) (v : V) :
  NoDup (keys d) -> In (k, v) d -> get d k = Some v.
Proof.
  induction d as [|[k' v'] d IH]; simpl; [tauto|].
  intros N [E | I].
  - injection E as -> ->. now rewrite eqb_refl.
  - inversion N as [|? ? NI N']; subst.
    destruct (eqb k' k) eqn:E.
    + apply eqb_eq in E. subst k'. exfalso. apply NI.
      change k with (fst (k, v)). now apply in_map.
    + auto.
Qed.

Lemma trained_size (self : t) (seqs : list (list Z)) :
  trained self seqs -> get_vocab_size self = 259 + len (merges self).
Proof.
  intros T. destruct (tr_vocab _ _ T) as (ext & E & L & _).
  rewrite get_vocab_size_len. unfold len. rewrite E, length_app, L.
  change (length base_vocab) with 259%nat. lia.
Qed.

(** X8.  After construction and any training the vocabulary has one entry
    per base symbol and one per merge: its size is 259 plus the size of the
    merge table, and the merge table hands out the ids 259, 260, ... in the
    order of its entries, each pair at most once. *)
Theorem vocab_size_is_base_plus_merges (self : t) :
  reachable self ->
  get_vocab_size self = 259 + len (merges self)
  /\ map snd (merges self)
     = map (fun i => 259 + Z.of_nat i) (seq 0 (length (merges self)))
  /\ NoDup (keys (merges self)).
Proof.
  intros R. destruct (reachable_trained self R) as [seqs T].
  split; [|split; [apply T | apply T]].
  now apply (trained_size self seqs).
Qed.

Lemma vocab_size_is_base_plus_merges_witness :
  reachable (fst (train [[97; 98; 97; 98; 97; 98; 97; 98]] 300 new))
  /\ get_vocab_size (fst (train [[97; 98; 97; 98; 97; 98; 97; 98]] 300 new))
     = 259
       + len (merges (fst (train [[97; 98; 97; 98; 97; 98; 97; 98]] 300 new))).
Proof.
  assert (reachable (fst (train [[97; 98; 97; 98; 97; 98; 97; 98]] 300 new)))
    as R by apply reach_train, reach_new.
  split; [exact R|].
  exact (proj1 (vocab_size_is_base_plus_merges _ R)).
Defined.

(** X9.  Training only appends to the vocabulary: after construction and any
    training the vocabulary is the 259 base entries, unchanged and in place,
    followed by the entries of the merges, each of which expands to at least
    two bytes; every entry is a non-empty string of bytes, and the control
    ids are still 256, 257 and 258. *)
Theorem trained_vocab_extends_base (self : t) :
  reachable self ->
  (exists ext,
      vocab self = base_vocab ++ ext
      /\ Forall (fun e => (2 <= length (snd e))%nat) ext)
  /\ Forall (fun e => snd e <> [] /\ Forall is_byte (snd e)) (vocab self)
  /\ ByteTokenizer.pad_token_id (base self) = Some 256
  /\ ByteTokenizer.bos_token_id (base self) = Some 257
  /\ ByteTokenizer.eos_token_id (base self) = Some 258.
Proof.
  intros R. destruct (reachable_trained self R) as [seqs T].
  split; [|split; [apply T | apply T]].
  destruct (tr_vocab _ _ T) as (ext & E & _ & F). eauto.
Qed.

Lemma trained_vocab_extends_base_witness :
  reachable (fst (train [[97; 98; 97; 98]] 300 new))
  /\ exists ext,
      vocab (fst (train [[97; 98; 97; 98]] 300 new)) = base_vocab ++ ext
      /\ Forall (fun e => (2 <= length (snd e))%nat) ext.
Proof.
  assert (reachable (fst (train [[97; 98; 97; 98]] 300 new)))
    as R by apply reach_train, reach_new.
  split; [exact R|].
  exact (proj1 (trained_vocab_extends_base _ R)).
Defined.

(** X10.  Every id from 259 up to the vocabulary size was created by a merge
    of two smaller ids: the merge table maps exactly one pair to it, both ids
    of the pair have entries, and the entry of the id is the concatenation of
    theirs. *)
Theorem composite_ids_have_parts (self : t) (id : Z) :
  reachable self ->
  259 <= id < get_vocab_size self ->
  exists a b l r,
    get (merges self) (a, b) = Some id
    /\ 0 <= a < id /\ 0 <= b < id
    /\ get (vocab self) a = Some l
    /\ get (vocab self) b = Some r
    /\ get (vocab self) id = Some (l ++ r).
Proof.
  intros R Rg. destruct (reachable_trained self R) as [seqs T].
  rewrite (trained_size self seqs T) in Rg. unfold len in Rg.
  assert (In id (map snd (merges self))) as I.
  { rewrite (tr_ids _ _ T). apply in_map_iff.
    exists (Z.to_nat (id - 259)). split; [lia|]. apply in_seq. lia. }
  apply in_map_iff in I. destruct I as ([[a b] id'] & E & I).
  cbn [snd] in E. subst id'.
  pose proof (In_entry_get _ _ _ (tr_nodup _ _ T) I) as G.
  destruct (tr_parts _ _ T _ _ G) as [Pa Pb].
  destruct (wf_merges _ (tr_wf _ _ T) _ _ G) as (l & r & G1 & G2 & G3).
  exists a, b, l, r. cbn [fst snd] in *. repeat split; auto; lia.
Qed.

Lemma composite_ids_have_parts_witness :
  (reachable (fst (train [[97; 98; 97; 98]] 300 new))
   /\ 259 <= 259 < get_vocab_size (fst (train [[97; 98; 97; 98]] 300 new)))
  /\ exists a b l r,
      get (merges (fst (train [[97; 98; 97; 98]] 300 new))) (a, b) = Some 259
      /\ 0 <= a < 259 /\ 0 <= b < 259
      /\ get (vocab (fst (train [[97; 98; 97; 98]] 300 new))) a = Some l
      /\ get (vocab (fst (train [[97; 98; 97; 98]] 300 new))) b = Some r
      /\ get (vocab (fst (train [[97; 98; 97; 98]] 300 new))) 259
         = Some (l ++ r).
Proof.
  assert (reachable (fst (train [[97; 98; 97; 98]] 300 new)))
    as R by apply reach_train, reach_new.
  assert (259 <= 259 < get_vocab_size (fst (train [[97; 98; 97; 98]] 300 new)))
    as Rg by (vm_compute; split; congruence).
  split; [split; assumption|].
  exact (composite_ids_have_parts _ 259 R Rg).
Defined.

(** ** How [train] fails *)

Lemma encode_raises_iff (text : str) :
  Utf8.encode text = Raise UnicodeEncodeError
  <-> exists cp, In cp text /\ Utf8.is_scalar cp = false.
Proof.
  split.
  - intros E. induction text as [|cp text IH]; [discriminate|].
    destruct (Utf8.is_scalar cp) eqn:S.
    + cbn [Utf8.encode] in E.
      destruct (encode_char_scalar cp S) as [b Eb]. rewrite Eb in E.
      cbn [bind] in E.
      destruct (Utf8.encode text) as [bs| |]; cbn [bind] in E;
        try discriminate.
      destruct (IH E) as (c & I & Sc). exists c. simpl. auto.
    + exists cp. simpl. auto.
  - intros (cp & I & S).
    destruct (encode_outcome text) as [[bs E] | E]; auto.
    destruct (encode_Ok_inv text bs E) as (F & _).
    rewrite Forall_forall in F. apply F in I. congruence.
Qed.

Lemma encode_texts_raises_iff (texts : list str) :
  encode_texts texts = Raise UnicodeEncodeError
  <-> exists text cp,
      In text texts /\ In cp text /\ Utf8.is_scalar cp = false.
Proof.
  induction texts as [|text texts IH]; cbn [encode_texts].
  - split; [discriminate | intros (? & ? & [] & _)].
  - destruct (encode_outcome text) as [[bs E] | E]; rewrite E; cbn [bind].
    + assert (~ exists cp, In cp text /\ Utf8.is_scalar cp = false) as NB.
      { rewrite <- encode_raises_iff. congruence. }
      destruct (encode_texts texts) as [seqs| |]; cbn [bind].
      * split; [discriminate|]. intros (t' & cp & [<- | I] & Ic & S).
        -- exfalso. apply NB. eauto.
        -- assert (@Ok (list (list Z)) seqs = Raise UnicodeEncodeError)
             by (apply IH; eauto).
           discriminate.
      * split.
        -- intros R. apply IH in R. destruct R as (t' & cp & I & Ic & S).
           exists t', cp. simpl. auto.
        -- intros (t' & cp & [<- | I] & Ic & S).
           ++ exfalso. apply NB. eauto.
           ++ apply IH. eauto.
      * split; [discriminate|]. intros (t' & cp & [<- | I] & Ic & S).
        -- exfalso. apply NB. eauto.
        -- assert (@OutOfFuel (list (list Z)) = Raise UnicodeEncodeError)
             by (apply IH; eauto).
           discriminate.
    + split; auto. intros _. apply encode_raises_iff in E.
      destruct E as (cp & I & S). exists text, cp. simpl. auto.
Qed.

(** X11.  With a target above 259, [train] raises [UnicodeEncodeError]
    exactly when some text of the corpus holds a code point that UTF-8 cannot
    encode (a surrogate); the tokenizer is then left reset to the base
    vocabulary with an empty merge table, whatever it had learned before. *)
Theorem train_unicode_error (texts : list str) (max_vocab : Z) (self : t) :
  259 < max_vocab ->
  (snd (train texts max_vocab self) = Raise UnicodeEncodeError
   <-> exists text cp,
       In text texts /\ In cp text /\ Utf8.is_scalar cp = false)
  /\ (snd (train texts max_vocab self) = Raise UnicodeEncodeError ->
      fst (train texts max_vocab self) = mk base_tokenizer []).
Proof.
  intros L. rewrite (train_started texts max_vocab self L).
  rewrite <- encode_texts_raises_iff.
  destruct (encode_texts_outcome texts) as [(seqs & E & F) | E]; rewrite E.
  - assert (snd (train_loop (Z.to_nat (max_vocab - 259)) seqs
                            (mk base_tokenizer []))
            <> Raise UnicodeEncodeError) as NR.
    { assert (Forall (known (vocab (mk base_tokenizer []))) seqs) as Kn.
      { revert F. apply Forall_impl. intros ids. apply known_bytes, wf_base. }
      destruct (train_loop_inv (Z.to_nat (max_vocab - 259)) seqs
                               (mk base_tokenizer []) wf_base Kn)
        as (_ & _ & P).
      intros R. rewrite R in P. cbn [loop_post] in P. discriminate. }
    split; [split; [contradiction | discriminate] | contradiction].
  - cbn [fst snd]. tauto.
Qed.

Lemma train_unicode_error_witness :
  259 < 300
  /\ snd (train [[97; 98]; [55357]] 300 new) = Raise UnicodeEncodeError.
Proof.
  assert (259 < 300) as L by lia.
  split; [exact L|].
  apply (proj1 (train_unicode_error [[97; 98]; [55357]] 300 new L)).
  exists [55357], 55357. split; [simpl; auto|]. split; [simpl; auto|].
  reflexivity.
Defined.

Lemma train_step_no_pairs (seqs : list (list Z)) (self : t) :
  count_pairs seqs = [] -> train_step seqs self = (self, Raise ValueError).
Proof.
  intros E. unfold train_step, bindM, lift. rewrite E. reflexivity.
Qed.

(** X12.  With a target above 259, [train] raises [ValueError] (from [max]
    over no pairs) when no text of the corpus encodes to two bytes or more --
    in particular on an empty corpus -- and leaves the base tokenizer.  More
    generally an iteration raises [ValueError] exactly when the sequences
    have no adjacent pair left, and [train] raises nothing but [ValueError]
    and [UnicodeEncodeError]. *)
Theorem train_value_error (texts : list str) (max_vocab : Z) (self : t) :
  (259 < max_vocab ->
   forall seqs,
     encode_texts texts = Ok seqs ->
     Forall (fun ids => (length ids <= 1)%nat) seqs ->
     train texts max_vocab self = (mk base_tokenizer [], Raise ValueError))
  /\ (forall (seqs : list (list Z)) (s : t),
         snd (train_step seqs s) = Raise ValueError
         <-> Forall (fun ids => (length ids <= 1)%nat) seqs)
  /\ (forall e, snd (train texts max_vocab self) = Raise e ->
                e = ValueError \/ e = UnicodeEncodeError)
  /\ snd (train texts max_vocab self) <> OutOfFuel.
Proof.
  split; [|split; [|split]].
  - intros L seqs E F. rewrite (train_started texts max_vocab self L), E.
    destruct (Z.to_nat (max_vocab - 259)) as [|n] eqn:N; [lia|].
    cbn [train_loop]. unfold bindM.
    rewrite train_step_no_pairs; [reflexivity|].
    now apply count_pairs_nil_iff.
  - intros seqs s. rewrite <- count_pairs_nil_iff. split.
    + intros R.
      destruct (select_pair_cases (count_pairs seqs)) as [[E _] | [_ [p S]]];
        auto.
      exfalso. revert R.
      unfold train_step, bindM, lift, read, modify, ret. rewrite S.
      destruct (In_keys_get _ _ (select_pair_In _ _ S)) as [freq G].
      unfold getitem at 1. rewrite G.
      destruct (freq =? 1); cbn [snd]; try discriminate.
      rewrite !vocab_set_merges. unfold getitem.
      destruct (get (vocab s) (fst p)); cbn [snd]; try discriminate.
      destruct (get (vocab s) (snd p)); cbn [snd]; discriminate.
    + intros E. now rewrite train_step_no_pairs.
  - intros e R. destruct (train_inv texts max_vocab self) as (_ & _ & _ & P).
    rewrite R in P. cbn [train_post] in P. tauto.
  - intros R. destruct (train_inv texts max_vocab self) as (_ & _ & _ & P).
    rewrite R in P. exact P.
Qed.

Lemma train_value_error_witness :
  (259 < 300 /\ encode_texts [[97]; []] = Ok [[97]; []]
   /\ Forall (fun ids => (length ids <= 1)%nat) [[97]; []])
  /\ train [[97]; []] 300 new = (mk base_tokenizer [], Raise ValueError).
Proof.
  assert (259 < 300) as L by lia.
  assert (encode_texts [[97]; []] = Ok [[97]; []]) as E by reflexivity.
  assert (Forall (fun ids => (length ids <= 1)%nat) [[97]; []]) as F
      by (repeat constructor).
  split; [repeat split; assumption|].
  exact (proj1 (train_value_error [[97]; []] 300 new) L [[97]; []] E F).
Defined.

(** X13.  [train] starts from scratch: its result does not depend on the
    tokenizer it is called on, so training again discards what was learned
    before, and training twice with the same arguments gives the same
    tokenizer as training once. *)
Theorem train_ignores_prior_state (texts : list str) (max_vocab : Z)
        (self other : t) :
  train texts max_vocab self = train texts max_vocab other
  /\ (forall texts0 max_vocab0,
         train texts max_vocab (fst (train texts0 max_vocab0 self))
         = train texts max_vocab self).
Proof.
  assert (forall a b, train texts max_vocab a = train texts max_vocab b) as H.
  { intros a b. unfold train, bindM. now rewrite !bpe_init_vocab. }
  split; [apply H | intros; apply H].
Qed.

(** ** [encode] and [decode] *)

Lemma encode_loop_no_merges (fuel : nat) (ids : list Z) :
  encode_loop (S fuel) [] ids = Ok ids.
Proof.
  cbn [encode_loop]. destruct (1 <? length ids)%nat eqn:L; auto.
  apply Nat.ltb_lt in L.
  destruct (select_pair_single ids L) as (p & -> & _). reflexivity.
Qed.

(** X14.  A tokenizer with an empty merge table -- a new [BpeTokenizer], or
    one whose training made no merge -- encodes like the byte tokenizer: the
    ids are the UTF-8 bytes of the text. *)
Theorem encode_untrained_is_bytes (self : t) (text : str) :
  merges self = [] ->
  encode self text = Utf8.encode text
  /\ encode self text = ByteTokenizer.encode (base self) text.
Proof.
  intros M. unfold encode, ByteTokenizer.encode. rewrite M.
  destruct (Utf8.encode text) as [data| |]; cbn [bind];
    rewrite ?encode_loop_no_merges; auto.
Qed.

Lemma encode_untrained_is_bytes_witness :
  merges new = []
  /\ encode new [1052; 97] = Utf8.encode [1052; 97].
Proof.
  assert (merges new = []) as M by (rewrite bpe_new; reflexivity).
  split; [exact M|].
  exact (proj1 (encode_untrained_is_bytes new [1052; 97] M)).
Defined.

Lemma encode_char_length (cp : Z) (bs : bytes) :
  Utf8.encode_char cp = Ok bs -> (1 <= length bs <= 4)%nat.
Proof.
  unfold Utf8.encode_char.
  repeat match goal with
         | |- context [if ?c then _ else _] => destruct c
         end; intros E; try discriminate; apply Ok_inj in E; subst bs;
    simpl; lia.
Qed.

Lemma utf8_encode_length (text : str) (data : bytes) :
  Utf8.encode text = Ok data ->
  (length text <= length data <= 4 * length text)%nat.
Proof.
  revert data. induction text as [|cp text IH]; intros data; cbn [Utf8.encode].
  - intros E. apply Ok_inj in E. subst. simpl. lia.
  - destruct (Utf8.encode_char cp) as [b| |] eqn:Ec; cbn [bind];
      try discriminate.
    destruct (Utf8.encode text) as [bs| |]; cbn [bind]; try discriminate.
    intros E. apply Ok_inj in E. subst data.
    pose proof (encode_char_length cp b Ec). specialize (IH bs eq_refl).
    rewrite length_app. cbn [length]. lia.
Qed.

Lemma substitute_nonempty (l : list Z) (p : Z * Z) (idx : Z) :
  l <> [] -> substitute l p idx <> [].
Proof.
  destruct l as [|a rest]; [congruence|]. intros _.
  destruct (substitute_head a rest p idx) as [tl [H | H]]; rewrite H;
    discriminate.
Qed.

Lemma encode_loop_nonempty (m : dict (Z * Z) Z) (fuel : nat) :
  forall ids ids' : list Z,
    encode_loop fuel m ids = Ok ids' -> ids <> [] -> ids' <> [].
Proof.
  induction fuel as [|fuel IH]; intros ids ids'; [discriminate|].
  cbn [encode_loop]. destruct (1 <? length ids)%nat.
  - destruct (select_pair (count_pairs [ids])) as [p| |]; cbn [bind];
      try discriminate.
    destruct (contains m p); cbn [negb].
    + destruct (getitem m p) as [idx| |]; cbn [bind]; try discriminate.
      intros E N. apply (IH _ _ E). rewrite merge_substitute.
      now apply substitute_nonempty.
    + intros E. apply Ok_inj in E. now subst.
  - intros E. apply Ok_inj in E. now subst.
Qed.

(** X15.  Lengths: the byte tokenizer returns between one and four ids per
    code point; the BPE tokenizer, with any merge table, returns at most as
    many ids as the text has UTF-8 bytes, and returns no ids exactly for the
    empty text. *)
Theorem encode_length_bounds (self : t) (text : str) (ids : list Z) :
  (ByteTokenizer.encode (base self) text = Ok ids ->
   (length text <= length ids <= 4 * length text)%nat)
  /\ (encode self text = Ok ids ->
      (length ids <= 4 * length text)%nat
      /\ (forall data, Utf8.encode text = Ok data ->
                       (length ids <= length data)%nat)
      /\ (ids = [] <-> text = [])).
Proof.
  split; [apply utf8_encode_length|].
  unfold encode. destruct (Utf8.encode text) as [data| |] eqn:U; cbn [bind];
    try discriminate.
  intros E. pose proof (utf8_encode_length text data U) as LB.
  destruct (encode_loop_terminates (merges self) (S (length data)) data)
    as (ids' & E' & Le); [lia|].
  rewrite E' in E. apply Ok_inj in E. subst ids'.
  split; [lia|]. split.
  - intros d Ed. apply Ok_inj in Ed. subst d. exact Le.
  - split.
    + intros ->. destruct data as [|b data].
      * destruct text; [reflexivity | simpl in LB; lia].
      * exfalso. apply (encode_loop_nonempty _ _ _ _ E'); [discriminate|].
        reflexivity.
    + intros ->. cbn [Utf8.encode] in U. apply Ok_inj in U. subst data.
      simpl in Le. destruct ids; [reflexivity | simpl in Le; lia].
Qed.

Lemma encode_length_bounds_witness :
  encode (fst (train [[97; 98; 97; 98]] 300 new)) [97; 98; 97; 98]
  = Ok [259; 259]
  /\ (length [259; 259] <= 4 * length [97; 98; 97; 98])%nat.
Proof.
  assert (encode (fst (train [[97; 98; 97; 98]] 300 new)) [97; 98; 97; 98]
          = Ok [259; 259]) as E by (vm_compute; reflexivity).
  split; [exact E|].
  exact (proj1 (proj2 (encode_length_bounds
                         (fst (train [[97; 98; 97; 98]] 300 new))
                         [97; 98; 97; 98] [259; 259]) E)).
Defined.

(** X16.  Both [encode] methods raise exactly when the text holds a code
    point that UTF-8 cannot encode (a surrogate), with any merge table, and
    what they raise is [UnicodeEncodeError]. *)
Theorem encode_raises_exactly_on_surrogates (self : t) (text : str) :
  ((exists e, encode self text = Raise e)
   <-> exists cp, In cp text /\ Utf8.is_scalar cp = false)
  /\ (forall e, encode self text = Raise e -> e = UnicodeEncodeError)
  /\ ((exists e, ByteTokenizer.encode (base self) text = Raise e)
      <-> exists cp, In cp text /\ Utf8.is_scalar cp = false)
  /\ (forall e, ByteTokenizer.encode (base self) text = Raise e ->
                e = UnicodeEncodeError).
Proof.
  rewrite <- encode_raises_iff. unfold encode, ByteTokenizer.encode.
  destruct (encode_outcome text) as [[data E] | E]; rewrite E; cbn [bind].
  - destruct (encode_loop_terminates (merges self) (S (length data)) data)
      as (ids & -> & _); [lia|].
    repeat split; try discriminate; intros [e R]; discriminate.
  - repeat split; eauto; intros e R; congruence.
Qed.

Lemma encode_raises_exactly_on_surrogates_witness :
  (exists cp, In cp [97; 56320] /\ Utf8.is_scalar cp = false)
  /\ exists e, encode new [97; 56320] = Raise e.
Proof.
  assert (exists cp, In cp [97; 56320] /\ Utf8.is_scalar cp = false) as H
      by (exists 56320; split; [simpl; auto | reflexivity]).
  split; [exact H|].
  exact (proj2 (proj1 (encode_raises_exactly_on_surrogates new [97; 56320])) H).
Defined.

(** X17.  Substituting a pair by an id whose vocabulary entry is the
    concatenation of the entries of the pair does not change what [decode]
    returns. *)
Theorem merge_preserves_decode (self : ByteTokenizer.t) (ids : list Z)
        (pair : Z * Z) (idx : Z) (l r : bytes) (s : str) :
  get (ByteTokenizer.vocab self) (fst pair) = Some l ->
  get (ByteTokenizer.vocab self) (snd pair) = Some r ->
  get (ByteTokenizer.vocab self) idx = Some (l ++ r) ->
  ByteTokenizer.decode self ids = Ok s ->
  ByteTokenizer.decode self (merge ids pair idx) = Ok s.
Proof.
  intros Gl Gr Gi. unfold ByteTokenizer.decode.
  destruct (ByteTokenizer.join_vocab (ByteTokenizer.vocab self) ids)
    as [data| |] eqn:J; cbn [bind]; try discriminate.
  intros E. rewrite merge_substitute.
  rewrite (join_vocab_substitute _ pair idx l r Gl Gr Gi ids data J).
  exact E.
Qed.

Lemma merge_preserves_decode_witness :
  (get (vocab (fst (train [[97; 98; 97; 98]] 300 new))) 97 = Some [97]
   /\ get (vocab (fst (train [[97; 98; 97; 98]] 300 new))) 98 = Some [98]
   /\ get (vocab (fst (train [[97; 98; 97; 98]] 300 new))) 259
      = Some ([97] ++ [98])
   /\ decode (fst (train [[97; 98; 97; 98]] 300 new)) [97; 98; 99]
      = Ok [97; 98; 99])
  /\ decode (fst (train [[97; 98; 97; 98]] 300 new))
            (merge [97; 98; 99] (97, 98) 259)
     = Ok [97; 98; 99].
Proof.
  assert (get (vocab (fst (train [[97; 98; 97; 98]] 300 new))) 97 = Some [97])
    as Gl by (vm_compute; reflexivity).
  assert (get (vocab (fst (train [[97; 98; 97; 98]] 300 new))) 98 = Some [98])
    as Gr by (vm_compute; reflexivity).
  assert (get (vocab (fst (train [[97; 98; 97; 98]] 300 new))) 259
          = Some ([97] ++ [98])) as Gi by (vm_compute; reflexivity).
  assert (decode (fst (train [[97; 98; 97; 98]] 300 new)) [97; 98; 99]
          = Ok [97; 98; 99]) as D by (vm_compute; reflexivity).
  split; [repeat split; assumption|].
  exact (merge_preserves_decode
           (base (fst (train [[97; 98; 97; 98]] 300 new)))
           [97; 98; 99] (97, 98) 259 [97] [98] [97; 98; 99] Gl Gr Gi D).
Defined.

(** X18.  [encode] stops as soon as the best-ranked pair of the current
    sequence is not a key of the merge table, whatever other pairs of the
    sequence are: if this holds for the UTF-8 bytes of the text, [encode]
    returns the bytes unchanged.  So the result can still hold a learned
    pair, as for 'abc' after training on 'abab'. *)
Theorem encode_stops_at_unlearned_top_pair (self : t) (text : str)
        (data : bytes) (p : Z * Z) :
  Utf8.encode text = Ok data ->
  select_pair (count_pairs [data]) = Ok p ->
  get (merges self) p = None ->
  encode self text = Ok data.
Proof.
  intros U S G. unfold encode. rewrite U. cbn [bind].
  destruct (1 <? length data)%nat eqn:L.
  - apply Nat.ltb_lt in L.
    now rewrite (encode_loop_step (length data) (merges self) data p L S), G.
  - cbn [encode_loop]. now rewrite L.
Qed.

Lemma encode_stops_at_unlearned_top_pair_witness :
  (Utf8.encode [97; 98; 99] = Ok [97; 98; 99]
   /\ select_pair (count_pairs [[97; 98; 99]]) = Ok (98, 99)
   /\ get (merges (fst (train [[97; 98; 97; 98]] 300 new))) (98, 99) = None)
  /\ get (merges (fst (train [[97; 98; 97; 98]] 300 new))) (97, 98) = Some 259
  /\ encode (fst (train [[97; 98; 97; 98]] 300 new)) [97; 98; 99]
     = Ok [97; 98; 99].
Proof.
  assert (Utf8.encode [97; 98; 99] = Ok [97; 98; 99]) as U by reflexivity.
  assert (select_pair (count_pairs [[97; 98; 99]]) = Ok (98, 99)) as S
      by reflexivity.
  assert (get (merges (fst (train [[97; 98; 97; 98]] 300 new))) (98, 99) = None)
    as G by (vm_compute; reflexivity).
  split; [repeat split; assumption|].
  split; [vm_compute; reflexivity|].
  exact (encode_stops_at_unlearned_top_pair
           (fst (train [[97; 98; 97; 98]] 300 new)) [97; 98; 99] [97; 98; 99]
           (98, 99) U S G).
Defined.

Lemma utf8_encode_app (t1 t2 : str) (d1 d2 : bytes) :
  Utf8.encode t1 = Ok d1 -> Utf8.encode t2 = Ok d2 ->
  Utf8.encode (t1 ++ t2) = Ok (d1 ++ d2).
Proof.
  revert d1. induction t1 as [|cp t1 IH]; intros d1; cbn [Utf8.encode app].
  - intros E1 E2. apply Ok_inj in E1. now subst.
  - destruct (Utf8.encode_char cp) as [b| |]; cbn [bind]; try discriminate.
    destruct (Utf8.encode t1) as [bs| |]; cbn [bind]; try discriminate.
    intros E1 E2. apply Ok_inj in E1. subst d1.
    rewrite (IH bs eq_refl E2). cbn [bind]. now rewrite app_assoc.
Qed.

Lemma join_vocab_app (v : dict Z bytes) (ids1 ids2 : list Z) (d1 d2 : bytes) :
  ByteTokenizer.join_vocab v ids1 = Ok d1 ->
  ByteTokenizer.join_vocab v ids2 = Ok d2 ->
  ByteTokenizer.join_vocab v (ids1 ++ ids2) = Ok (d1 ++ d2).
Proof.
  revert d1. induction ids1 as [|x ids1 IH]; intros d1 J1 J2.
  - cbn [ByteTokenizer.join_vocab] in J1. apply Ok_inj in J1. now subst.
  - apply join_vocab_cons in J1. destruct J1 as (e & rest & G & J & ->).
    cbn [app]. apply join_vocab_cons. exists e, (rest ++ d2).
    split; auto. split; [now apply IH | now rewrite app_assoc].
Qed.

(** X19.  Token sequences can be concatenated: decoding the encoding of one
    text followed by the encoding of another returns the two texts joined,
    although encoding the joined text may tokenize differently. *)
Theorem decode_concatenated_encodings (self : t) (t1 t2 : str)
        (ids1 ids2 : list Z) :
  reachable self ->
  encode self t1 = Ok ids1 -> encode self t2 = Ok ids2 ->
  decode self (ids1 ++ ids2) = Ok (t1 ++ t2).
Proof.
  intros R E1 E2. pose proof (reachable_wf self R) as W.
  destruct (bpe_encode_join self t1 ids1 W E1) as (d1 & U1 & J1).
  destruct (bpe_encode_join self t2 ids2 W E2) as (d2 & U2 & J2).
  unfold decode, ByteTokenizer.decode. fold (vocab self).
  rewrite (join_vocab_app _ _ _ _ _ J1 J2). cbn [bind].
  destruct (encode_Ok_inv _ _ (utf8_encode_app _ _ _ _ U1 U2)) as (_ & _ & D).
  now rewrite D.
Qed.

Lemma decode_concatenated_encodings_witness :
  (reachable (fst (train [[97; 98; 97; 98]] 300 new))
   /\ encode (fst (train [[97; 98; 97; 98]] 300 new)) [97] = Ok [97]
   /\ encode (fst (train [[97; 98; 97; 98]] 300 new)) [98] = Ok [98])
  /\ decode (fst (train [[97; 98; 97; 98]] 300 new)) ([97] ++ [98])
     = Ok ([97] ++ [98])
  /\ encode (fst (train [[97; 98; 97; 98]] 300 new)) ([97] ++ [98]) = Ok [259].
Proof.
  assert (reachable (fst (train [[97; 98; 97; 98]] 300 new)))
    as R by apply reach_train, reach_new.
  assert (encode (fst (train [[97; 98; 97; 98]] 300 new)) [97] = Ok [97])
    as E1 by (vm_compute; reflexivity).
  assert (encode (fst (train [[97; 98; 97; 98]] 300 new)) [98] = Ok [98])
    as E2 by (vm_compute; reflexivity).
  split; [repeat split; assumption|].
  split; [|vm_compute; reflexivity].
  exact (decode_concatenated_encodings _ [97] [98] [97] [98] R E1 E2).
Defined.

(** ** What [decode] returns can be encoded again *)

Ltac split_tests :=
  repeat (first
    [ progress cbv beta iota
    | match goal with
      | |- context [match ?l with [] => _ | _ :: _ => _ end] =>
          is_var l; destruct l
      | |- context [Z.ltb ?a ?b] => destruct (Z.ltb_spec a b)
      | |- context [Z.leb ?a ?b] => destruct (Z.leb_spec a b)
      | |- context [Z.eqb ?a ?b] => destruct (Z.eqb_spec a b)
      end
    | progress cbn [andb orb negb] ]).

Ltac invert_bytes :=
  repeat match goal with
         | H : Forall is_byte (_ :: _) |- _ =>
             let a := fresh "Hb" in
             let b := fresh "Hbs" in
             pose proof (Forall_inv H) as a;
             pose proof (Forall_inv_tail H) as b; clear H
         end.

Lemma decode_scalar_bounded (n : nat) :
  forall data : bytes,
    (length data <= n)%nat -> Forall is_byte data ->
    Forall (fun cp => Utf8.is_scalar cp = true) (Utf8.decode data).
Proof.
  induction n as [|n IH]; intros data L B.
  - destruct data; [constructor | simpl in L; lia].
  - destruct data as [|ch s1]; [constructor|].
    cbn [Utf8.decode]. unfold Utf8.is_continuation.
    split_tests;
      repeat (apply Forall_cons || apply Forall_nil);
      try (apply is_scalar_range; invert_bytes;
           unfold is_byte, Utf8.REPLACEMENT in *; lia);
      try (apply IH; [simpl in L |- *; lia
                     | invert_bytes;
                       repeat first [assumption | apply Forall_cons]]).
Qed.

Lemma decode_scalar (data : bytes) :
  Forall is_byte data ->
  Forall (fun cp => Utf8.is_scalar cp = true) (Utf8.decode data).
Proof. apply (decode_scalar_bounded (length data)). lia. Qed.

Lemma join_vocab_is_bytes (v : dict Z bytes) (ids : list Z) (data : bytes) :
  Forall (fun e => snd e <> [] /\ Forall is_byte (snd e)) v ->
  ByteTokenizer.join_vocab v ids = Ok data -> Forall is_byte data.
Proof.
  intros B. revert data. induction ids as [|x ids IH]; intros data J.
  - cbn [ByteTokenizer.join_vocab] in J. apply Ok_inj in J. subst. constructor.
  - apply join_vocab_cons in J. destruct J as (e & rest & G & J & ->).
    apply Forall_app. split; [|now apply IH].
    rewrite Forall_forall in B. apply get_In_entry in G.
    apply (B _ G).
Qed.

(** X20.  Whatever ids are decoded, the string that [decode] returns holds
    no surrogate and no value beyond U+10FFFF, so it can be encoded again,
    and the ids obtained decode to the same string: decode, encode, decode
    returns what the first decode returned. *)
Theorem decode_is_reencodable (self : t) (ids : list Z) (s : str) :
  reachable self ->
  decode self ids = Ok s ->
  Forall (fun cp => Utf8.is_scalar cp = true) s
  /\ exists ids', encode self s = Ok ids' /\ decode self ids' = Ok s.
Proof.
  intros R D. destruct (reachable_trained self R) as [seqs T].
  unfold decode, ByteTokenizer.decode in D. fold (vocab self) in D.
  destruct (ByteTokenizer.join_vocab (vocab self) ids) as [data| |] eqn:J;
    cbn [bind] in D; try discriminate.
  apply Ok_inj in D. subst s.
  assert (Forall (fun cp => Utf8.is_scalar cp = true) (Utf8.decode data)) as V.
  { apply decode_scalar. eapply join_vocab_is_bytes; [apply T | eauto]. }
  split; [exact V|].
  apply bpe_round_trip; [apply T | exact V].
Qed.

Lemma decode_is_reencodable_witness :
  (reachable new /\ decode new [255; 97] = Ok [65533; 97])
  /\ Forall (fun cp => Utf8.is_scalar cp = true) [65533; 97]
  /\ exists ids', encode new [65533; 97] = Ok ids'
                  /\ decode new ids' = Ok [65533; 97].
Proof.
  assert (decode new [255; 97] = Ok [65533; 97]) as D
      by (vm_compute; reflexivity).
  split; [split; [exact reach_new | exact D]|].
  exact (decode_is_reencodable new [255; 97] [65533; 97] reach_new D).
Defined.
